(** * Asset registry over a document store

    A shallow embedding of [projeto_final_bd_nosql.py]: the asset documents,
    the MongoDB collection they live in, and the registry operations
    ([importar_csv_para_mongodb], [inserir_documento_extra],
    [editar_documento], [excluir_documento], [buscar_bens_por_localizacao],
    [contar_bens_por_localizacao]) and the remaining queries
    ([buscar_todos_documentos], [buscar_bens_com_status_ou_categoria],
    [buscar_historico_de_movimentacao],
    [contar_bens_por_categoria_e_status]).

    The Python functions talk to three things outside the script: the
    document store, the file system holding the CSV, and the console.  All
    three are fields of one [world] record that is threaded through a small
    state-and-exception monad; [try ... except Exception] is [try_except]. *)

From stdpp Require Import gmap strings list pretty sorting.

Open Scope string_scope.
Open Scope nat_scope.
Open Scope list_scope.
Open Scope stdpp_scope.

(** ** Documents *)

(** One element of [movement_history].  The script builds it as a dict whose
    keys [from_location] / [to_location] are only assigned on some paths of
    [editar_documento], hence the options. *)
Record MovementEntry := {
  date : string;
  type : string;
  from_location : option string;
  to_location : option string;
  responsible : string }.

(** The business fields of an asset document.  [location] and [status] are
    read with [.get(key, default)] by the script, so an absent key is
    representable; an absent [movement_history] array is the empty list
    (that is what [$push] starts from). *)
Record Asset := {
  asset_id : string;
  asset_name : string;
  category : string;
  brand : string;
  description : string;
  location : option string;
  status : option string;
  acquisition_date : string;
  movement_history : list MovementEntry }.

#[global] Instance MovementEntry_eq_dec : EqDecision MovementEntry.
Proof. solve_decision. Defined.
#[global] Instance Asset_eq_dec : EqDecision Asset.
Proof. solve_decision. Defined.

(** A stored document: the [_id] the driver attached, and the fields. *)
Abbreviation ObjectId := nat (only parsing).
Abbreviation stored := (ObjectId * Asset)%type.

(** ** The world the script runs in *)

(** A row of the parsed CSV: column name to the [str] rendering of the cell. *)
Abbreviation row := (gmap string string).

Inductive csv_file :=
  | Unreadable (msg : string)      (* [pd.read_csv] raises *)
  | Table (rows : list row).

Record world := {
  bens : list stored;              (* the collection, in natural order *)
  next_oid : ObjectId;             (* next [_id] the driver hands out *)
  faults : list (option string);   (* one slot per store call still to come:
                                      [Some msg] makes that call raise *)
  lenient_empty_set : bool;        (* server accepts [{"$set": {}}] (5.0 on) *)
  files : gmap string csv_file;    (* the file system, by path *)
  clock : string;                  (* [pd.Timestamp.now()], formatted *)
  stdout : list string }.          (* lines printed so far, oldest first *)

Definition set_bens (f : list stored → list stored) (w : world) : world :=
  {| bens := f (bens w); next_oid := next_oid w; faults := faults w;
     lenient_empty_set := lenient_empty_set w; files := files w;
     clock := clock w; stdout := stdout w |}.
Definition set_next_oid (n : ObjectId) (w : world) : world :=
  {| bens := bens w; next_oid := n; faults := faults w;
     lenient_empty_set := lenient_empty_set w; files := files w;
     clock := clock w; stdout := stdout w |}.
Definition set_faults (fs : list (option string)) (w : world) : world :=
  {| bens := bens w; next_oid := next_oid w; faults := fs;
     lenient_empty_set := lenient_empty_set w; files := files w;
     clock := clock w; stdout := stdout w |}.
Definition set_stdout (f : list string → list string) (w : world) : world :=
  {| bens := bens w; next_oid := next_oid w; faults := faults w;
     lenient_empty_set := lenient_empty_set w; files := files w;
     clock := clock w; stdout := f (stdout w) |}.

(** ** State and exception monad *)

Inductive outcome (A : Type) :=
  | Ok (a : A)
  | Raised (e : string).           (* the exception, by its [str(e)] *)
Arguments Ok {A} a.
Arguments Raised {A} e.

Definition M (A : Type) : Type := world → outcome A * world.

Definition ret {A} (a : A) : M A := λ w, (Ok a, w).
Definition raise {A} (e : string) : M A := λ w, (Raised e, w).
Definition bind {A B} (m : M A) (k : A → M B) : M B :=
  λ w, match m w with
       | (Ok a, w') => k a w'
       | (Raised e, w') => (Raised e, w')
       end.
Definition try_except {A} (m : M A) (handler : string → M A) : M A :=
  λ w, match m w with
       | (Ok a, w') => (Ok a, w')
       | (Raised e, w') => handler e w'
       end.

#[global] Instance M_ret : MRet M := @ret.
#[global] Instance M_bind : MBind M := λ A B k m, bind m k.

(** The newline character of Python's ["\n"]. *)
Definition nl : string := String (Ascii.ascii_of_nat 10) "".

Definition print (line : string) : M () :=
  λ w, (Ok (), set_stdout (λ out, out ++ [line]) w).
Definition now : M string := λ w, (Ok (clock w), w).

(** ** Store primitives (pymongo calls) *)

(** Every round trip to the server uses up one slot of [faults]; once the
    schedule is exhausted the store never fails.  A round trip that fails
    raises and leaves the collection as it was. *)
Definition tick (w : world) : world := set_faults (tail (faults w)) w.

Definition store_call {A} (body : M A) : M A :=
  λ w, match faults w with
       | Some msg :: _ => (Raised msg, tick w)
       | _ => body (tick w)
       end.

(** The next [n] store calls succeed. *)
Fixpoint calmb (n : nat) (fs : list (option string)) : bool :=
  match n, fs with
  | 0, _ => true
  | S _, [] => true
  | S n', None :: fs' => calmb n' fs'
  | S _, Some _ :: _ => false
  end.
Definition calm (n : nat) (w : world) : Prop := calmb n (faults w) = true.

Definition has_asset_id (k : string) (d : stored) : bool :=
  bool_decide (asset_id d.2 = k).

(** [collection.delete_many({})] *)
Definition delete_many_all : M nat :=
  store_call (λ w, (Ok (length (bens w)), set_bens (λ _, []) w)).

(** [collection.insert_many(documents)]: the driver rejects an empty batch
    before contacting the server, stamps a fresh [_id] on every document,
    and the server appends them in order. *)
Definition stamp (n : ObjectId) (docs : list Asset) : list stored :=
  imap (λ i a, (n + i, a)) docs.

Definition insert_many (docs : list Asset) : M (list ObjectId) :=
  match docs with
  | [] => raise "documents must be a non-empty list"
  | _ => store_call (λ w,
           let new := stamp (next_oid w) docs in
           (Ok new.*1,
            set_next_oid (next_oid w + length docs)
              (set_bens (λ old, old ++ new) w)))
  end.

(** [collection.count_documents({})] *)
Definition count_documents : M nat :=
  store_call (λ w, (Ok (length (bens w)), w)).

(** [collection.find_one({"asset_id": k})]: the first match in natural
    order, with its position. *)
Definition first_with_id (k : string) (ds : list stored) : option (nat * stored) :=
  list_find (λ d, has_asset_id k d = true) ds.

Definition find_one (k : string) : M (option stored) :=
  store_call (λ w, (Ok (snd <$> first_with_id k (bens w)), w)).

(** [collection.find({"location": loc})] *)
Definition find_by_location (loc : string) : M (list stored) :=
  store_call (λ w, (Ok (filter (λ d, location d.2 = Some loc) (bens w)), w)).

(** [collection.delete_one({"asset_id": k})]: removes the first match. *)
Fixpoint remove_first (k : string) (ds : list stored) : list stored * nat :=
  match ds with
  | [] => ([], 0)
  | d :: ds' =>
      if has_asset_id k d then (ds', 1)
      else let '(r, n) := remove_first k ds' in (d :: r, n)
  end.

Definition delete_one (k : string) : M nat :=
  store_call (λ w, let '(r, n) := remove_first k (bens w) in
                   (Ok n, set_bens (λ _, r) w)).

(** [collection.update_one({"asset_id": k}, {"$set": fields, "$push":
    {"movement_history": entry}})].  [fields] is the Python dict
    [update_fields]; only the first matching document is touched. *)
Definition apply_update (fields : gmap string string) (entry : MovementEntry)
    (a : Asset) : Asset :=
  {| asset_id := asset_id a; asset_name := asset_name a;
     category := category a; brand := brand a; description := description a;
     location := match fields !! "location" with
                 | Some l => Some l | None => location a end;
     status := match fields !! "status" with
               | Some s => Some s | None => status a end;
     acquisition_date := acquisition_date a;
     movement_history := movement_history a ++ [entry] |}.

Fixpoint update_first (k : string) (f : Asset → Asset) (ds : list stored)
    : list stored * nat :=
  match ds with
  | [] => ([], 0)
  | d :: ds' =>
      if has_asset_id k d then ((d.1, f d.2) :: ds', 1)
      else let '(r, n) := update_first k f ds' in (d :: r, n)
  end.

Definition update_one (k : string) (fields : gmap string string)
    (entry : MovementEntry) : M nat :=
  store_call (λ w,
    if bool_decide (fields = ∅) && negb (lenient_empty_set w)
    then (Raised "'$set' is empty. You must specify a field like so: {$set: {<field>: ...}}", w)
    else let '(r, n) := update_first k (apply_update fields entry) (bens w) in
         (Ok n, set_bens (λ _, r) w)).

(** [collection.aggregate([{"$group": {"_id": "$location", "count":
    {"$sum": 1}}}, {"$sort": {"count": -1}}])].  A document without a
    [location] falls in the group whose [_id] is null ([None]).  The server
    promises no particular order of groups or of ties; the model keeps
    groups in order of first appearance and sorts with a merge sort. *)
Fixpoint bump (k : option string) (acc : list (option string * nat))
    : list (option string * nat) :=
  match acc with
  | [] => [(k, 1)]
  | (k', c) :: acc' =>
      if bool_decide (k' = k) then (k', S c) :: acc'
      else (k', c) :: bump k acc'
  end.

Definition group_by_location (ds : list stored) : list (option string * nat) :=
  foldl (λ acc d, bump (location d.2) acc) [] ds.

Definition count_desc (x y : option string * nat) : Prop := (y.2 ≤ x.2)%nat.
#[global] Instance count_desc_dec x y : Decision (count_desc x y).
Proof. unfold count_desc. apply _. Defined.

Definition aggregate_count_by_location : M (list (option string * nat)) :=
  store_call (λ w, (Ok (merge_sort count_desc (group_by_location (bens w))), w)).

(** ** The registry operations *)

(** What a call evaluates to when the function has no typed result of its
    own: [None], or an integer. *)
Inductive pyval :=
  | PyNone
  | PyInt (n : Z).

(** Python truthiness of an optional string argument ([if new_location:]). *)
Definition truthy (o : option string) : bool :=
  match o with
  | Some s => negb (bool_decide (s = ""))
  | None => false
  end.

(** [os.path.exists] and [pd.read_csv]. *)
Definition path_exists (path : string) : M bool :=
  λ w, (Ok (bool_decide (is_Some (files w !! path))), w).

Definition read_csv (path : string) : M (list row) :=
  λ w, match files w !! path with
       | Some (Table rows) => (Ok rows, w)
       | Some (Unreadable msg) => (Raised msg, w)
       | None => (Raised "No such file or directory", w)
       end.

(** [df.head(n)]: the first [n] rows; for negative [n], all but the last
    [|n|] rows. *)
Definition df_head {A} (n : Z) (rows : list A) : list A :=
  if bool_decide (0 ≤ n)%Z then take (Z.to_nat n) rows
  else take (length rows - Z.to_nat (- n)) rows.

(** [str(row.get(col, ""))] *)
Definition cell (r : row) (col : string) : string := default "" (r !! col).

Definition doc_of_row (r : row) : Asset :=
  {| asset_id := cell r "product_id";
     asset_name := cell r "product_name";
     category := cell r "category";
     brand := cell r "brand";
     description := cell r "description";
     location := Some "Armazenagem Principal";
     status := Some "Em Uso";
     acquisition_date := "2023-01-01";
     movement_history :=
       [ {| date := "2023-01-01 00:00:00";
            type := "Aquisição";
            from_location := Some "Fornecedor";
            to_location := Some "Armazenagem Principal";
            responsible := "Sistema Inicial" |} ] |}.

Definition importar_csv_para_mongodb (csv_path : string) (num_registros : Z)
    : M pyval :=
  found ← path_exists csv_path;
  if negb found then
    print ("Erro: Arquivo CSV '" +:+ csv_path +:+
           "' não encontrado. Por favor, verifique o caminho do arquivo.");;
    mret PyNone
  else
    try_except
      (df ← read_csv csv_path;
       print ("CSV '" +:+ csv_path +:+ "' carregado. Total de registros: " +:+
              pretty (length df) +:+ ".");;
       df_sample ←
         (if bool_decide (num_registros < Z.of_nat (length df))%Z then
            print ("Processando os primeiros " +:+ pretty num_registros +:+
                   " registros do CSV.");;
            mret (df_head num_registros df)
          else
            print ("Processando todos os " +:+ pretty (length df) +:+
                   " registros do CSV.");;
            mret df);
       let documents := doc_of_row <$> df_sample in
       match documents with
       | _ :: _ =>
           delete_many_all;;
           result ← insert_many documents;
           print (pretty (length result) +:+
                  " documentos importados com sucesso para o MongoDB.");;
           mret PyNone
       | [] =>
           print "Nenhum documento válido para importar.";;
           mret PyNone
       end)
      (λ e, print ("Erro ao importar CSV para MongoDB: " +:+ e);;
            mret PyNone).

(** The body of the [for i in range(num_docs)] loop of
    [inserir_documento_extra]: one [count_documents] round trip per
    iteration, outside any [try]. *)
Definition novo_bem (count i : nat) : Asset :=
  {| asset_id := "NEWASSET" +:+ pretty (count + 1 + i);
     asset_name := "Item Teste " +:+ pretty (i + 1);
     category := "Eletrônico";
     brand := "Genérica";
     description := "Descrição do Item Teste " +:+ pretty (i + 1) +:+
                    " para demonstração.";
     location := Some "Laboratório 101";
     status := Some "Ativo";
     acquisition_date := "2024-05-15";
     movement_history :=
       [ {| date := "2024-05-15 10:00:00";
            type := "Aquisição";
            from_location := Some "Fornecedor";
            to_location := Some "Laboratório 101";
            responsible := "Administrador" |} ] |}.

Fixpoint novos_bens (range : list nat) (new_assets : list Asset)
    : M (list Asset) :=
  match range with
  | [] => mret new_assets
  | i :: range' =>
      count ← count_documents;
      novos_bens range' (new_assets ++ [novo_bem count i])
  end.

Definition inserir_documento_extra (num_docs : Z) : M (list ObjectId) :=
  new_assets ← novos_bens (seq 0 (Z.to_nat num_docs)) [];
  try_except
    (result ← insert_many new_assets;
     print (nl +:+ "Inseridos " +:+ pretty (length result) +:+
            " documentos extras na coleção.");;
     mret result)
    (λ e, print ("Erro ao inserir documentos extras: " +:+ e);;
          mret []).

(** The value of an optional string argument when Python treats it as true
    ([if new_location:]): neither [None] nor the empty string. *)
Definition given (o : option string) : option string :=
  match o with
  | Some s => if truthy o then Some s else None
  | None => None
  end.

(** [current_asset.get(key, default) if current_asset else default] *)
Definition get_or {A} (field : Asset → option A) (dflt : A)
    (current_asset : option stored) : A :=
  match current_asset with
  | Some a => default dflt (field a.2)
  | None => dflt
  end.

Definition with_route (from to : string) (e : MovementEntry) : MovementEntry :=
  {| date := date e; type := type e; from_location := Some from;
     to_location := Some to; responsible := responsible e |}.
Definition with_type (t : string) (e : MovementEntry) : MovementEntry :=
  {| date := date e; type := t; from_location := from_location e;
     to_location := to_location e; responsible := responsible e |}.

Definition editar_documento (aid : string)
    (new_location new_status : option string) : M () :=
  let update_fields : gmap string string := ∅ in
  current_time ← now;
  let movement_entry :=
    {| date := current_time; type := "Movimentação"; from_location := None;
       to_location := None; responsible := "Usuário App" |} in
  '(update_fields, movement_entry) ←
    match given new_location with
    | Some loc =>
        current_asset ← find_one aid;
        let old_location := get_or location "Desconhecida" current_asset in
        print ("Atualizando localização do bem '" +:+ aid +:+ "' de '" +:+
               old_location +:+ "' para '" +:+ loc +:+ "'.");;
        mret (<["location" := loc]> update_fields,
              with_route old_location loc movement_entry)
    | None => mret (update_fields, movement_entry)
    end;
  '(update_fields, movement_entry) ←
    match given new_status with
    | Some st =>
        current_asset ← find_one aid;
        let old_status := get_or status "Desconhecido" current_asset in
        let movement_entry :=
          if truthy new_location then movement_entry
          else
            let here := get_or location "Desconhecida" current_asset in
            with_route here here
              (with_type ("Atualização de Status: " +:+ old_status +:+
                          " para " +:+ st) movement_entry) in
        print ("Atualizando status do bem '" +:+ aid +:+ "' de '" +:+
               old_status +:+ "' para '" +:+ st +:+ "'.");;
        mret (<["status" := st]> update_fields, movement_entry)
    | None => mret (update_fields, movement_entry)
    end;
  try_except
    (modified_count ← update_one aid update_fields movement_entry;
     if bool_decide (0 < modified_count)%nat then
       print ("Bem '" +:+ aid +:+
              "' editado com sucesso e histórico de movimentação atualizado.")
     else
       print ("Bem '" +:+ aid +:+
              "' não encontrado ou nenhum dado para editar."))
    (λ e, print ("Erro ao editar documento: " +:+ e)).

Definition excluir_documento (aid : string) : M () :=
  try_except
    (deleted_count ← delete_one aid;
     if bool_decide (0 < deleted_count)%nat then
       print (nl +:+ "Documento com asset_id '" +:+ aid +:+
              "' excluído com sucesso.")
     else
       print (nl +:+ "Documento com asset_id '" +:+ aid +:+
              "' não encontrado para exclusão."))
    (λ e, print ("Erro ao excluir documento: " +:+ e)).

(** [asset['status']] raises [KeyError] on a document without the key. *)
Definition subscript_status (a : Asset) : M string :=
  match status a with
  | Some s => mret s
  | None => raise "'status'"
  end.

Fixpoint print_assets (assets : list stored) : M () :=
  match assets with
  | [] => mret ()
  | asset :: rest =>
      st ← subscript_status asset.2;
      print ("ID: " +:+ asset_id asset.2 +:+ ", Nome: " +:+
             asset_name asset.2 +:+ ", Status: " +:+ st);;
      print_assets rest
  end.

Definition buscar_bens_por_localizacao (loc : string) : M (list stored) :=
  print (nl +:+ "--- Bens na localização: '" +:+ loc +:+ "' ---");;
  try_except
    (assets ← find_by_location loc;
     match assets with
     | _ :: _ => print_assets assets;; mret assets
     | [] =>
         print ("Nenhum bem encontrado na localização '" +:+ loc +:+ "'.");;
         mret []
     end)
    (λ e, print ("Erro ao buscar bens por localização: " +:+ e);;
          mret []).

Fixpoint print_counts (results : list (option string * nat)) : M () :=
  match results with
  | [] => mret ()
  | result :: rest =>
      print ("Localização: " +:+ default "None" result.1 +:+
             ", Quantidade: " +:+ pretty result.2);;
      print_counts rest
  end.

Definition contar_bens_por_localizacao : M (list (option string * nat)) :=
  print (nl +:+ "--- Contagem de Bens por Localização (Agregação) ---");;
  try_except
    (results ← aggregate_count_by_location;
     match results with
     | _ :: _ => print_counts results;; mret results
     | [] =>
         print "Nenhuma contagem por localização encontrada.";;
         mret []
     end)
    (λ e, print ("Erro ao contar bens por localização: " +:+ e);;
          mret []).

(** A call of one of the operations above, and its effect on the world.
    These are all the functions of the script that write to the collection,
    and two of those that only read it. *)
Inductive op :=
  | Import (csv_path : string) (num_registros : Z)
  | Insert (num_docs : Z)
  | Edit (aid : string) (new_location new_status : option string)
  | Delete (aid : string)
  | FindByLocation (loc : string)
  | CountByLocation.

(** The exception a call lets escape to its caller, if any. *)
Definition escaped {A} (r : outcome A * world) : option string :=
  match r.1 with
  | Ok _ => None
  | Raised e => Some e
  end.

Definition run_op (o : op) (w : world) : option string * world :=
  match o with
  | Import p n => let r := importar_csv_para_mongodb p n w in (escaped r, r.2)
  | Insert n => let r := inserir_documento_extra n w in (escaped r, r.2)
  | Edit k l s => let r := editar_documento k l s w in (escaped r, r.2)
  | Delete k => let r := excluir_documento k w in (escaped r, r.2)
  | FindByLocation l => let r := buscar_bens_por_localizacao l w in (escaped r, r.2)
  | CountByLocation => let r := contar_bens_por_localizacao w in (escaped r, r.2)
  end.

(** ** The remaining queries *)

(** [collection.find({})] *)
Definition find_all : M (list stored) :=
  store_call (λ w, (Ok (bens w), w)).

Fixpoint print_docs (repr : stored → string) (documents : list stored) : M () :=
  match documents with
  | [] => mret ()
  | doc :: rest => print (repr doc);; print_docs repr rest
  end.

(** [buscar_todos_documentos].  [print(doc)] writes Python's [repr] of the
    dict, which is taken as the parameter [repr]. *)
Definition buscar_todos_documentos (repr : stored → string) : M (list stored) :=
  print (nl +:+ "--- Todos os documentos na coleção 'bens' ---");;
  try_except
    (documents ← find_all;
     match documents with
     | _ :: _ => print_docs repr documents;; mret documents
     | [] => print "Nenhum documento encontrado.";; mret []
     end)
    (λ e, print ("Erro ao buscar todos os documentos: " +:+ e);;
          mret []).

(** The three query documents [buscar_bens_com_status_ou_categoria] builds:
    [{"$or": [{"status": s}, {"category": c}]}], [{"status": s}] and
    [{"category": c}]. *)
Inductive filtro :=
  | StatusOuCategoria (s c : string)
  | SoStatus (s : string)
  | SoCategoria (c : string).

Definition satisfaz (q : filtro) (d : stored) : bool :=
  match q with
  | StatusOuCategoria s c =>
      bool_decide (status d.2 = Some s) || bool_decide (category d.2 = c)
  | SoStatus s => bool_decide (status d.2 = Some s)
  | SoCategoria c => bool_decide (category d.2 = c)
  end.

(** [collection.find(query)] *)
Definition find_filtro (q : filtro) : M (list stored) :=
  store_call (λ w, (Ok (filter (λ d, satisfaz q d = true) (bens w)), w)).

(** [asset['location']] raises [KeyError] on a document without the key. *)
Definition subscript_location (a : Asset) : M string :=
  match location a with
  | Some l => mret l
  | None => raise "'location'"
  end.

Fixpoint print_assets_full (assets : list stored) : M () :=
  match assets with
  | [] => mret ()
  | asset :: rest =>
      loc ← subscript_location asset.2;
      st ← subscript_status asset.2;
      print ("ID: " +:+ asset_id asset.2 +:+ ", Nome: " +:+
             asset_name asset.2 +:+ ", Localização: " +:+ loc +:+
             ", Status: " +:+ st +:+ ", Categoria: " +:+ category asset.2);;
      print_assets_full rest
  end.

Definition buscar_bens_com_status_ou_categoria (st cat : option string)
    : M (list stored) :=
  let search (q : filtro) : M (list stored) :=
    try_except
      (assets ← find_filtro q;
       match assets with
       | _ :: _ => print_assets_full assets;; mret assets
       | [] =>
           print "Nenhum bem encontrado com os critérios especificados.";;
           mret []
       end)
      (λ e, print ("Erro ao buscar bens por status ou categoria: " +:+ e);;
            mret []) in
  match given st, given cat with
  | Some s, Some c =>
      print (nl +:+ "--- Bens com status '" +:+ s +:+ "' OU categoria '" +:+
             c +:+ "' ---");;
      search (StatusOuCategoria s c)
  | Some s, None =>
      print (nl +:+ "--- Bens com status '" +:+ s +:+ "' ---");;
      search (SoStatus s)
  | None, Some c =>
      print (nl +:+ "--- Bens com categoria '" +:+ c +:+ "' ---");;
      search (SoCategoria c)
  | None, None =>
      print "Forneça um status ou uma categoria para a busca.";;
      mret []
  end.

(** [entry.get(key)] printed inside an f-string: [None] when absent. *)
Definition get_str (o : option string) : string := default "None" o.

Fixpoint print_history (h : list MovementEntry) : M () :=
  match h with
  | [] => mret ()
  | entry :: rest =>
      print ("  - Data: " +:+ date entry +:+ ", Tipo: " +:+ type entry +:+
             ", De: " +:+ get_str (from_location entry) +:+ ", Para: " +:+
             get_str (to_location entry) +:+ ", Responsável: " +:+
             responsible entry);;
      print_history rest
  end.

(** [buscar_historico_de_movimentacao].  Every document of the model carries
    the [movement_history] key, so the test ["movement_history" in asset]
    succeeds on any document found. *)
Definition buscar_historico_de_movimentacao (aid : string)
    : M (list MovementEntry) :=
  print (nl +:+ "--- Histórico de Movimentação para o Bem: '" +:+ aid +:+
         "' ---");;
  try_except
    (asset ← find_one aid;
     match asset with
     | Some a =>
         print ("Nome do Bem: " +:+ asset_name a.2);;
         print_history (movement_history a.2);;
         mret (movement_history a.2)
     | None =>
         print ("Bem '" +:+ aid +:+
                "' não encontrado ou sem histórico de movimentação.");;
         mret []
     end)
    (λ e, print ("Erro ao buscar histórico de movimentação: " +:+ e);;
          mret []).

(** [collection.aggregate([{"$group": {"_id": {"category": "$category",
    "status": "$status"}, "count": {"$sum": 1}}}, {"$sort": {"_id.category":
    1, "count": -1}}])].  A group key is the pair of the two fields; a
    document without [status] gives a key without that field ([None]).
    Strings are ordered byte by byte. *)
Abbreviation cs_key := (string * option string)%type.

Fixpoint bump_key (k : cs_key) (acc : list (cs_key * nat)) : list (cs_key * nat) :=
  match acc with
  | [] => [(k, 1)]
  | (k', c) :: acc' =>
      if bool_decide (k' = k) then (k', S c) :: acc'
      else (k', c) :: bump_key k acc'
  end.

Definition group_by_category_status (ds : list stored) : list (cs_key * nat) :=
  foldl (λ acc d, bump_key (category d.2, status d.2) acc) [] ds.

Definition category_then_count (x y : cs_key * nat) : Prop :=
  String.le x.1.1 y.1.1 ∧ (x.1.1 = y.1.1 → (y.2 ≤ x.2)%nat).
#[global] Instance category_then_count_dec x y :
  Decision (category_then_count x y).
Proof. unfold category_then_count. apply _. Defined.

Definition aggregate_count_by_category_status : M (list (cs_key * nat)) :=
  store_call (λ w,
    (Ok (merge_sort category_then_count (group_by_category_status (bens w))), w)).

(** [result['_id']['status']] raises [KeyError] when the group key has no
    [status] field. *)
Fixpoint print_counts_cs (results : list (cs_key * nat)) : M () :=
  match results with
  | [] => mret ()
  | result :: rest =>
      st ← match result.1.2 with
           | Some s => mret s
           | None => raise "'status'"
           end;
      print ("Categoria: " +:+ result.1.1 +:+ ", Status: " +:+ st +:+
             ", Quantidade: " +:+ pretty result.2);;
      print_counts_cs rest
  end.

Definition contar_bens_por_categoria_e_status : M (list (cs_key * nat)) :=
  print (nl +:+ "--- Contagem de Bens por Categoria e Status (Agregação) ---");;
  try_except
    (results ← aggregate_count_by_category_status;
     match results with
     | _ :: _ => print_counts_cs results;; mret results
     | [] =>
         print "Nenhuma contagem por categoria e status encontrada.";;
         mret []
     end)
    (λ e, print ("Erro ao contar bens por categoria e status: " +:+ e);;
          mret []).

(** ** Sample worlds *)

Definition bem (k loc st : string) (h : list MovementEntry) : Asset :=
  {| asset_id := k; asset_name := "Nome " +:+ k; category := "Cat";
     brand := "Marca"; description := "Desc"; location := Some loc;
     status := Some st; acquisition_date := "2023-01-01";
     movement_history := h |}.

Definition aquisicao : MovementEntry :=
  {| date := "2023-01-01 00:00:00"; type := "Aquisição";
     from_location := Some "Fornecedor";
     to_location := Some "Armazenagem Principal";
     responsible := "Sistema Inicial" |}.

Definition mundo (ds : list stored) (fs : list (option string))
    (lenient : bool) (fls : gmap string csv_file) : world :=
  {| bens := ds; next_oid := 100; faults := fs; lenient_empty_set := lenient;
     files := fls; clock := "2024-06-01 12:00:00"; stdout := [] |}.

Definition linha (pid name : string) : row :=
  {[ "product_id" := pid; "product_name" := name ]}.

(** ** Notions used in the statements *)

(** [n] ticks in a row. *)
Definition ticks (n : nat) (w : world) : world := Nat.iter n tick w.

(** The asset [a] with the given location and status, and one more entry
    at the end of its history. *)
Definition edited (a : Asset) (loc st : option string) (e : MovementEntry)
    : Asset :=
  {| asset_id := asset_id a; asset_name := asset_name a;
     category := category a; brand := brand a; description := description a;
     location := loc; status := st;
     acquisition_date := acquisition_date a;
     movement_history := movement_history a ++ [e] |}.

(** The server takes the update document: either it tolerates an empty
    [$set], or the call sets at least one field. *)
Definition update_accepted (w : world) (new_location new_status : option string)
    : Prop :=
  lenient_empty_set w = true ∨ truthy new_location = true ∨
  truthy new_status = true.

(** The rows [importar_csv_para_mongodb] turns into documents. *)
Definition amostra (num_registros : Z) (df : list row) : list row :=
  if bool_decide (num_registros < Z.of_nat (length df))%Z
  then df_head num_registros df else df.

(** The operations that keep every store call inside their [try]. *)
Definition guarded (o : op) : bool :=
  match o with
  | Insert _ | Edit _ _ _ => false
  | _ => true
  end.

(** The number of documents whose [location] is [k] ([None]: no such key). *)
Definition count_at (k : option string) (ds : list stored) : nat :=
  length (filter (λ d, location d.2 = k) ds).

(** The count recorded for [k] in an accumulator, 0 if it has no group. *)
Fixpoint tally (k : option string) (acc : list (option string * nat)) : nat :=
  match acc with
  | [] => 0
  | (k', c) :: acc' => if bool_decide (k' = k) then c else tally k acc'
  end.

(** The history starts with an acquisition entry (so it is not empty). *)
Definition acquired (a : Asset) : Prop :=
  ∃ e rest, movement_history a = e :: rest ∧ type e = "Aquisição".

(** The operations that insert documents, and the one that edits them. *)
Definition creates (o : op) : bool :=
  match o with Import _ _ | Insert _ => true | _ => false end.
Definition is_edit (o : op) : bool :=
  match o with Edit _ _ _ => true | _ => false end.

(** Where a document [d'] found after a call of [o] comes from: it was
    created by the call, with the acquisition entry as its whole history; or
    it is a document from before the call, unchanged; or the call was an
    edit and [d'] is a document from before with one entry added at the end
    of its history. *)
Definition provenance (o : op) (w : world) (d' : stored) : Prop :=
  (creates o = true ∧ next_oid w ≤ d'.1 ∧
   ∃ e, movement_history d'.2 = [e] ∧ type e = "Aquisição") ∨
  d' ∈ bens w ∨
  (is_edit o = true ∧
   ∃ d e, d ∈ bens w ∧ d'.1 = d.1 ∧
          movement_history d'.2 = movement_history d.2 ++ [e]).

Definition evolves (o : op) (w : world) (after : list stored) : Prop :=
  Forall (λ d, acquired d.2) after ∧ ∀ d', d' ∈ after → provenance o w d'.

(** The store answers every call from now on. *)
Definition quiet (w : world) : Prop := faults w = [].

(** Nothing but the console differs between [w] and [w']. *)
Definition only_printed (w w' : world) : Prop :=
  bens w' = bens w ∧ next_oid w' = next_oid w ∧ faults w' = faults w ∧
  lenient_empty_set w' = lenient_empty_set w ∧ files w' = files w ∧
  clock w' = clock w.

(** The business identifiers of a list of documents, in order. *)
Definition asset_ids (ds : list stored) : list string :=
  (λ d, asset_id d.2) <$> ds.

(** What an edit may not touch: the [_id], the identifier, the descriptive
    fields and the acquisition date stay, and the old history is a prefix of
    the new one. *)
Definition same_identity (d d' : stored) : Prop :=
  d'.1 = d.1 ∧ asset_id d'.2 = asset_id d.2 ∧
  asset_name d'.2 = asset_name d.2 ∧ category d'.2 = category d.2 ∧
  brand d'.2 = brand d.2 ∧ description d'.2 = description d.2 ∧
  acquisition_date d'.2 = acquisition_date d.2 ∧
  movement_history d.2 `prefix_of` movement_history d'.2.

(** The entry a change of location writes. *)
Definition movimentacao (now from to : string) : MovementEntry :=
  {| date := now; type := "Movimentação"; from_location := Some from;
     to_location := Some to; responsible := "Usuário App" |}.

(** The number of documents with category and status key [k]. *)
Definition count_cs (k : cs_key) (ds : list stored) : nat :=
  length (filter (λ d, (category d.2, status d.2) = k) ds).

(** The count recorded for [k] in an accumulator of the second
    aggregation, 0 if it has no group. *)
Fixpoint tally_key (k : cs_key) (acc : list (cs_key * nat)) : nat :=
  match acc with
  | [] => 0
  | (k', c) :: acc' => if bool_decide (k' = k) then c else tally_key k acc'
  end.

(** * Properties *)

(** ** Running the monad *)

Ltac unfold_monad :=
  unfold mbind, M_bind, bind, mret, M_ret, ret, raise, try_except, print, now
    in *.

Section store.
Context {A : Type}.
Implicit Types (w : world) (body : M A).

Lemma calm_S n w : calm (S n) w → calm n (tick w) ∧ calm n w.
Proof.
  unfold calm, tick. destruct w as [ds o fs ? ? ? ?]; simpl.
  revert fs. induction n as [|n IH]; intros fs Hc; [done|].
  destruct fs as [|[msg|] fs]; simpl in *; try done.
  destruct (IH _ Hc) as [H1 H2]. split; [done|].
  destruct fs as [|[?|] ?]; simpl in *; done.
Qed.

Lemma store_call_calm n body w :
  calm (S n) w → store_call body w = body (tick w).
Proof.
  unfold calm, store_call. destruct (faults w) as [|[msg|] fs]; simpl; done.
Qed.

Lemma store_call_fault body w msg fs :
  faults w = Some msg :: fs → store_call body w = (Raised msg, tick w).
Proof. unfold store_call. by intros ->. Qed.

(** Whatever happens, a round trip changes the collection only through
    its body. *)
Lemma store_call_cases body w :
  store_call body w = body (tick w) ∨
  ∃ msg, store_call body w = (Raised msg, tick w).
Proof.
  unfold store_call. destruct (faults w) as [|[msg|] fs]; eauto.
Qed.
End store.

Lemma calm_le n m w : m ≤ n → calm n w → calm m w.
Proof.
  induction 1 as [|n Hle IH]; [done|].
  intros Hc. apply IH. by apply calm_S in Hc as [_ ?].
Qed.

Lemma tick_bens w : bens (tick w) = bens w.
Proof. done. Qed.

Lemma ticks_bens n w : bens (ticks n w) = bens w.
Proof. induction n as [|n IH]; [done|]. exact IH. Qed.

Lemma ticks_S n w : ticks (S n) w = ticks n (tick w).
Proof. unfold ticks. by rewrite Nat.iter_succ_r. Qed.

(** ** Manual insertion: the generated identifiers *)

Lemma novos_bens_calm range : ∀ acc w,
  calm (length range) w →
  novos_bens range acc w
  = (Ok (acc ++ (novo_bem (length (bens w)) <$> range)),
     ticks (length range) w).
Proof.
  induction range as [|i range IH]; intros acc w Hc; simpl.
  - by rewrite app_nil_r.
  - unfold_monad. unfold count_documents.
    rewrite (store_call_calm (length range)) by done.
    apply calm_S in Hc as [Hc _].
    rewrite IH by done. rewrite tick_bens, <-(assoc_L (++)).
    by rewrite <-ticks_S.
Qed.

(** The loop never writes: whether or not a round trip fails on the way,
    the collection is as it was. *)
Lemma novos_bens_bens range : ∀ acc w,
  bens (novos_bens range acc w).2 = bens w.
Proof.
  induction range as [|i range IH]; intros acc w; simpl; [done|].
  unfold_monad. unfold count_documents.
  destruct (store_call_cases (A:=nat) (λ w, (Ok (length (bens w)), w)) w)
    as [-> | [msg ->]]; simpl; [|done].
  by rewrite IH.
Qed.

Lemma insert_many_calm n docs w :
  docs ≠ [] → calm (S n) w →
  insert_many docs w
  = (Ok (stamp (next_oid w) docs).*1,
     set_next_oid (next_oid w + length docs)
       (set_bens (λ old, old ++ stamp (next_oid w) docs) (tick w))).
Proof.
  intros Hne Hc. destruct docs as [|a docs]; [done|].
  unfold insert_many. by rewrite (store_call_calm n).
Qed.

Lemma stamp_length n docs : length (stamp n docs) = length docs.
Proof. unfold stamp. by rewrite length_imap. Qed.

Lemma stamp_snd n docs : (stamp n docs).*2 = docs.
Proof.
  unfold stamp. revert n. induction docs as [|a docs IH]; intros n; [done|].
  simpl. f_equal. rewrite <-(IH (S n)) at 2. f_equal.
  apply imap_ext. intros i x _. simpl. f_equal. lia.
Qed.

Lemma stamp_fresh n docs d : d ∈ stamp n docs → n ≤ d.1.
Proof.
  unfold stamp. intros (i & a & -> & _)%elem_of_lookup_imap. simpl. lia.
Qed.

Lemma novo_bem_id_inj count : Inj (=) (=) (λ i, asset_id (novo_bem count i)).
Proof.
  intros i j Heq. unfold novo_bem in Heq. cbn [asset_id] in Heq.
  apply (inj (String.app _)), (inj pretty) in Heq. lia.
Qed.

(** C10.  A call of [inserir_documento_extra] with [num_docs = n ≥ 1] on a
    collection of [m] documents, with the store answering its [n + 1] round
    trips: the loop leaves the collection untouched and reads the count [m]
    every time, so the batch appended afterwards carries the identifiers
    "NEWASSET(m+1)" ... "NEWASSET(m+n)", which are pairwise distinct. *)
Theorem inserir_documento_extra_ids (w : world) (n : Z) :
  (1 ≤ n)%Z → calm (Z.to_nat n + 1) w →
  let m := length (bens w) in
  let range := seq 0 (Z.to_nat n) in
  let loop := novos_bens range [] w in
  let r := inserir_documento_extra n w in
  bens loop.2 = bens w ∧
  ∃ batch : list stored,
    bens r.2 = bens w ++ batch ∧
    r.1 = Ok batch.*1 ∧
    loop.1 = Ok batch.*2 ∧
    (λ d, asset_id d.2) <$> batch
      = (λ i, "NEWASSET" +:+ pretty (m + 1 + i)) <$> range ∧
    NoDup ((λ d, asset_id d.2) <$> batch).
Proof.
  intros Hn Hc m range loop r. split; [apply novos_bens_bens|].
  assert (Hlen : length range = Z.to_nat n) by (unfold range; apply length_seq).
  assert (Hloop : loop = (Ok (novo_bem m <$> range), ticks (Z.to_nat n) w)).
  { unfold loop. rewrite novos_bens_calm, Hlen; [done|].
    rewrite Hlen. eapply calm_le; [|done]. lia. }
  assert (Hcalm : calm 1 (ticks (Z.to_nat n) w)).
  { clear -Hc. revert w Hc. induction (Z.to_nat n) as [|k IH]; intros w Hc.
    - done.
    - rewrite ticks_S. apply IH. by apply calm_S in Hc as [? _]. }
  assert (Hne : novo_bem m <$> range ≠ []).
  { intros Hnil%fmap_nil_inv. unfold range in Hnil.
    apply (f_equal length) in Hnil. rewrite length_seq in Hnil. simpl in Hnil. lia. }
  set (w1 := ticks (Z.to_nat n) w) in *.
  exists (stamp (next_oid w1) (novo_bem m <$> range)).
  assert (Hr : r = (Ok (stamp (next_oid w1) (novo_bem m <$> range)).*1,
                    (inserir_documento_extra n w).2) ∧
               bens r.2 = bens w ++ stamp (next_oid w1) (novo_bem m <$> range)).
  { unfold r, inserir_documento_extra. unfold_monad. fold range. fold loop.
    rewrite Hloop. rewrite (insert_many_calm 0) by done. simpl.
    split; [done|]. unfold w1. by rewrite ticks_bens. }
  destruct Hr as [Hr1 Hr2].
  assert (Hids : (λ d : stored, asset_id d.2) <$> stamp (next_oid w1) (novo_bem m <$> range)
                 = (λ i, "NEWASSET" +:+ pretty (m + 1 + i)) <$> range).
  { transitivity (asset_id <$> (stamp (next_oid w1) (novo_bem m <$> range)).*2).
    - by rewrite <-list_fmap_compose.
    - by rewrite stamp_snd, <-list_fmap_compose. }
  split_and!; [done| by rewrite Hr1 | by rewrite Hloop, stamp_snd | done |].
  rewrite Hids.
  apply (@NoDup_fmap_2 _ _ _ (novo_bem_id_inj m)), NoDup_seq.
Qed.

Lemma inserir_documento_extra_ids_witness :
  ∃ batch : list stored,
    bens (inserir_documento_extra 3
            (mundo [(1, bem "A1" "Sala" "Ativo" [aquisicao]);
                    (2, bem "A2" "Sala" "Ativo" [aquisicao])] [None] true ∅)).2
    = [(1, bem "A1" "Sala" "Ativo" [aquisicao]);
       (2, bem "A2" "Sala" "Ativo" [aquisicao])] ++ batch ∧
    (λ d : stored, asset_id d.2) <$> batch = ["NEWASSET3"; "NEWASSET4"; "NEWASSET5"].
Proof.
  destruct (inserir_documento_extra_ids
              (mundo [(1, bem "A1" "Sala" "Ativo" [aquisicao]);
                      (2, bem "A2" "Sala" "Ativo" [aquisicao])] [None] true ∅) 3)
    as [_ (batch & Hb & _ & _ & Hids & _)]; [lia | reflexivity |].
  exists batch. split; [exact Hb | exact Hids].
Defined.

(** ** Editing *)

Arguments has_asset_id : simpl never.
Arguments insert_many : simpl never.
Arguments stamp : simpl never.

Ltac step_store :=
  match goal with
  | |- context [store_call ?b ?w] =>
      destruct (store_call_cases b w) as [-> | [? ->]]
  end; simpl.

Lemma given_Some s : s ≠ "" → given (Some s) = Some s.
Proof. intros Hs. unfold given, truthy. by rewrite bool_decide_false. Qed.

Lemma given_truthy o : truthy o = false → given o = None.
Proof. unfold given. destruct o; [|done]. by intros ->. Qed.

Lemma given_None_truthy o : given o = None → truthy o = false.
Proof. unfold given. destruct o; [|done]. by destruct (truthy (Some s)). Qed.

(** What [update_one] does to the list of documents. *)
Lemma update_first_found k f ds i d :
  first_with_id k ds = Some (i, d) →
  update_first k f ds = (<[i := (d.1, f d.2)]> ds, 1).
Proof.
  unfold first_with_id. revert i.
  induction ds as [|x ds IH]; intros i Hfind; [done|].
  simpl in *. destruct (has_asset_id k x) eqn:Hx.
  - rewrite decide_True in Hfind by done. by simplify_eq.
  - rewrite decide_False in Hfind by done.
    destruct (list_find _ ds) as [[j y]|] eqn:Hds; simplify_eq/=.
    by rewrite (IH j).
Qed.

Lemma update_first_absent k f ds :
  first_with_id k ds = None → update_first k f ds = (ds, 0).
Proof.
  unfold first_with_id.
  induction ds as [|x ds IH]; intros Hfind; [done|].
  simpl in *. destruct (has_asset_id k x) eqn:Hx.
  - by rewrite decide_True in Hfind.
  - rewrite decide_False in Hfind by done.
    destruct (list_find _ ds) as [[j y]|] eqn:Hds; simplify_eq/=.
    by rewrite IH.
Qed.

Lemma first_with_id_lookup k ds i d :
  first_with_id k ds = Some (i, d) → ds !! i = Some d ∧ asset_id d.2 = k.
Proof.
  unfold first_with_id. intros (Hl & Hid & _)%list_find_Some.
  split; [done|]. unfold has_asset_id in Hid. by apply bool_decide_eq_true in Hid.
Qed.

Lemma first_with_id_None k ds :
  first_with_id k ds = None ↔ ∀ d, d ∈ ds → asset_id d.2 ≠ k.
Proof.
  unfold first_with_id. rewrite list_find_None, Forall_forall.
  unfold has_asset_id. split; intros H d Hd; specialize (H d Hd).
  - intros Heq. apply H. by apply bool_decide_eq_true.
  - intros Heq. by apply bool_decide_eq_true in Heq.
Qed.

Lemma update_one_calm n k fields entry w :
  calm (S n) w →
  (lenient_empty_set w = true ∨ fields ≠ ∅) →
  update_one k fields entry w
  = let u := update_first k (apply_update fields entry) (bens w) in
    (Ok u.2, set_bens (λ _, u.1) (tick w)).
Proof.
  intros Hc Hacc. unfold update_one. rewrite (store_call_calm n) by done.
  simpl. assert (bool_decide (fields = ∅) && negb (lenient_empty_set w) = false) as ->.
  { destruct Hacc as [-> | Hne]; [by rewrite andb_false_r|].
    by rewrite bool_decide_false. }
  by destruct (update_first _ _ _).
Qed.

Lemma find_one_calm n k w :
  calm (S n) w →
  find_one k w = (Ok (snd <$> first_with_id k (bens w)), tick w).
Proof. intros Hc. unfold find_one. by rewrite (store_call_calm n). Qed.

(** The documents after any call of [update_one]: untouched, or the first
    match rewritten by [$set] and [$push]. *)
Lemma update_one_bens k fields entry w :
  let r := update_one k fields entry w in
  bens r.2 = bens w ∨
  ∃ i d, first_with_id k (bens w) = Some (i, d) ∧
         bens r.2 = <[i := (d.1, apply_update fields entry d.2)]> (bens w).
Proof.
  unfold update_one. step_store; [|by left].
  destruct (_ && _); [by left|].
  destruct (first_with_id k (bens w)) as [[i d]|] eqn:Hf.
  - rewrite (update_first_found _ _ _ i d) by done. simpl. right. eauto.
  - rewrite update_first_absent by done. by left.
Qed.

(** C5.  [editar_documento] with both a new location and a new status, on
    an asset that exists (its first match is [d], at position [i]), with the
    store answering the three round trips: both fields are set, every other
    document stays as it was, and exactly one entry is appended.  Its type is
    the fixed label "Movimentação", whatever the old and new status are; it
    runs from the prior location (the [.get] default "Desconhecida" if the
    document had none) to the new one. *)
Theorem editar_documento_location_and_status
    (w : world) (aid loc st : string) (i : nat) (d : stored) :
  loc ≠ "" → st ≠ "" → calm 3 w →
  first_with_id aid (bens w) = Some (i, d) →
  let r := editar_documento aid (Some loc) (Some st) w in
  let e := {| date := clock w;
              type := "Movimentação";
              from_location := Some (default "Desconhecida" (location d.2));
              to_location := Some loc;
              responsible := "Usuário App" |} in
  r.1 = Ok () ∧
  bens r.2 = <[i := (d.1, edited d.2 (Some loc) (Some st) e)]> (bens w).
Proof.
  intros Hloc Hst Hc Hfind r e. unfold r, editar_documento.
  rewrite !given_Some by done.
  assert (Ht : truthy (Some loc) = true).
  { unfold truthy. by rewrite bool_decide_false. }
  rewrite Ht. unfold_monad. simpl.
  rewrite (find_one_calm 2) by done. simpl.
  apply calm_S in Hc as [Hc _].
  rewrite (find_one_calm 1) by done. simpl.
  apply calm_S in Hc as [Hc _].
  rewrite (update_one_calm 0); [|done|].
  2:{ right. intros Hempty. apply (f_equal (.!! "status")) in Hempty.
      by rewrite lookup_insert_eq in Hempty. }
  simpl. rewrite (update_first_found _ _ _ i d) by done. simpl.
  split; [done|]. rewrite Hfind. simpl. done.
Qed.

Lemma editar_documento_location_and_status_witness :
  bens (editar_documento "A1" (Some "Reitoria") (Some "Em Manutenção")
          (mundo [(7, bem "A0" "Sala 1" "Ativo" [aquisicao]);
                  (8, bem "A1" "Sala 2" "Em Uso" [aquisicao])] [] true ∅)).2
  = [(7, bem "A0" "Sala 1" "Ativo" [aquisicao]);
     (8, bem "A1" "Reitoria" "Em Manutenção"
           [aquisicao;
            {| date := "2024-06-01 12:00:00"; type := "Movimentação";
               from_location := Some "Sala 2"; to_location := Some "Reitoria";
               responsible := "Usuário App" |}])].
Proof.
  apply (editar_documento_location_and_status
           (mundo [(7, bem "A0" "Sala 1" "Ativo" [aquisicao]);
                   (8, bem "A1" "Sala 2" "Em Uso" [aquisicao])] [] true ∅)
           "A1" "Reitoria" "Em Manutenção" 1
           (8, bem "A1" "Sala 2" "Em Uso" [aquisicao]));
    [done | done | reflexivity | reflexivity].
Defined.

(** C7.  [editar_documento] with a new status [st] and no new location, on
    an asset that exists, with the store answering the two round trips: the
    status becomes [st], the location is left as it was, and exactly one
    entry is appended, whose [from_location] and [to_location] are both that
    unchanged location (the [.get] default "Desconhecida" if the document
    has none) and whose type spells out the old and the new status. *)
Theorem editar_documento_status_only
    (w : world) (aid st : string) (new_location : option string)
    (i : nat) (d : stored) :
  truthy new_location = false → st ≠ "" → calm 2 w →
  first_with_id aid (bens w) = Some (i, d) →
  let r := editar_documento aid new_location (Some st) w in
  let here := default "Desconhecida" (location d.2) in
  let e := {| date := clock w;
              type := "Atualização de Status: " +:+
                      default "Desconhecido" (status d.2) +:+ " para " +:+ st;
              from_location := Some here;
              to_location := Some here;
              responsible := "Usuário App" |} in
  r.1 = Ok () ∧
  bens r.2 = <[i := (d.1, edited d.2 (location d.2) (Some st) e)]> (bens w) ∧
  (∀ l, location d.2 = Some l →
        from_location e = Some l ∧ to_location e = Some l).
Proof.
  intros Hnl Hst Hc Hfind r here e. unfold r, editar_documento.
  rewrite (given_truthy new_location), Hnl, given_Some by done.
  unfold_monad. simpl.
  rewrite (find_one_calm 1) by done. simpl.
  apply calm_S in Hc as [Hc _].
  rewrite (update_one_calm 0); [|done|].
  2:{ right. intros Hempty. apply (f_equal (.!! "status")) in Hempty.
      by rewrite lookup_insert_eq in Hempty. }
  simpl. rewrite (update_first_found _ _ _ i d) by done. simpl.
  rewrite Hfind. simpl. split_and!; [done|done|].
  intros l Hl. unfold here. by rewrite Hl.
Qed.

Lemma editar_documento_status_only_witness :
  bens (editar_documento "NEWASSET3" None (Some "Desativado")
          (mundo [(7, bem "A0" "Sala 1" "Ativo" [aquisicao]);
                  (8, bem "NEWASSET3" "Laboratório 101" "Ativo" [aquisicao])]
             [] true ∅)).2
  = [(7, bem "A0" "Sala 1" "Ativo" [aquisicao]);
     (8, bem "NEWASSET3" "Laboratório 101" "Desativado"
           [aquisicao;
            {| date := "2024-06-01 12:00:00";
               type := "Atualização de Status: Ativo para Desativado";
               from_location := Some "Laboratório 101";
               to_location := Some "Laboratório 101";
               responsible := "Usuário App" |}])].
Proof.
  apply (editar_documento_status_only
           (mundo [(7, bem "A0" "Sala 1" "Ativo" [aquisicao]);
                   (8, bem "NEWASSET3" "Laboratório 101" "Ativo" [aquisicao])]
              [] true ∅)
           "NEWASSET3" "Desativado" None 1
           (8, bem "NEWASSET3" "Laboratório 101" "Ativo" [aquisicao]));
    [reflexivity | done | reflexivity | reflexivity].
Defined.

(** The collection after any call of [editar_documento], whatever the fault
    schedule: as it was, or with the first match of [aid] given some
    location and status and exactly one more entry.  Stated for an arbitrary
    property [P] of the resulting list of documents. *)
Ltac step_update :=
  match goal with
  | |- context [update_one ?k ?f ?e ?w'] =>
      let Hu := fresh "Hu" in
      destruct (update_one_bens k f e w') as [Hu | (? & ? & ? & Hu)];
      destruct (update_one k f e w') as [[?|?] ?];
      simpl in *; try destruct (bool_decide _); simpl; rewrite Hu; eauto
  end.

Lemma editar_documento_post (P : list stored → Prop) w aid new_location new_status :
  P (bens w) →
  (∀ i d fields e,
     first_with_id aid (bens w) = Some (i, d) →
     P (<[i := (d.1, apply_update fields e d.2)]> (bens w))) →
  P (bens (editar_documento aid new_location new_status w).2).
Proof.
  intros H0 H1. unfold editar_documento, find_one. unfold_monad. simpl.
  destruct (given new_location) as [loc|]; simpl.
  - step_store; [|done].
    destruct (given new_status) as [st|]; simpl.
    + step_store; [|done]. step_update.
    + step_update.
  - destruct (given new_status) as [st|]; simpl.
    + step_store; [|done]. step_update.
    + step_update.
Qed.

Lemma editar_documento_bens w aid new_location new_status :
  let r := editar_documento aid new_location new_status w in
  bens r.2 = bens w ∨
  ∃ i d fields e,
    first_with_id aid (bens w) = Some (i, d) ∧
    bens r.2 = <[i := (d.1, apply_update fields e d.2)]> (bens w).
Proof.
  simpl. apply editar_documento_post with
    (P := λ b, b = bens w ∨ ∃ i d fields e,
            first_with_id aid (bens w) = Some (i, d) ∧
            b = <[i := (d.1, apply_update fields e d.2)]> (bens w)).
  - by left.
  - intros i d fields e Hf. right. eauto 10.
Qed.

(** C6.  [editar_documento] on an identifier that no document carries never
    changes the collection: every document, histories included, is as
    before, whatever the arguments and whatever the store does.  When the
    store serves the call (its round trips succeed and the server takes the
    update document), the call returns normally and the last line printed is
    the not-found report. *)
Theorem editar_documento_not_found
    (w : world) (aid : string) (new_location new_status : option string) :
  (∀ d, d ∈ bens w → asset_id d.2 ≠ aid) →
  let r := editar_documento aid new_location new_status w in
  bens r.2 = bens w ∧
  (calm 3 w → update_accepted w new_location new_status →
   r.1 = Ok () ∧
   last (stdout r.2)
   = Some ("Bem '" +:+ aid +:+ "' não encontrado ou nenhum dado para editar.")).
Proof.
  intros Habs%first_with_id_None r. split.
  - unfold r. apply editar_documento_post; [done|].
    intros i d fields e Hf. congruence.
  - intros Hc Hacc. unfold r, editar_documento. unfold_monad. simpl.
    destruct (given new_location) as [loc|] eqn:Hgl;
      destruct (given new_status) as [st|] eqn:Hgs; simpl.
    + rewrite (find_one_calm 2) by done. simpl.
      apply calm_S in Hc as [Hc _].
      rewrite (find_one_calm 1) by done. simpl.
      apply calm_S in Hc as [Hc _].
      rewrite (update_one_calm 0); [|done|].
      2:{ right. intros Hempty. apply (f_equal (.!! "status")) in Hempty.
          by rewrite lookup_insert_eq in Hempty. }
      simpl. rewrite update_first_absent by done. simpl.
      by rewrite last_snoc.
    + rewrite (find_one_calm 2) by done. simpl.
      apply calm_S in Hc as [Hc _].
      rewrite (update_one_calm 1); [|done|].
      2:{ right. intros Hempty. apply (f_equal (.!! "location")) in Hempty.
          by rewrite lookup_insert_eq in Hempty. }
      simpl. rewrite update_first_absent by done. simpl.
      by rewrite last_snoc.
    + rewrite (find_one_calm 2) by done. simpl.
      apply calm_S in Hc as [Hc _].
      rewrite (update_one_calm 1); [|done|].
      2:{ right. intros Hempty. apply (f_equal (.!! "status")) in Hempty.
          by rewrite lookup_insert_eq in Hempty. }
      simpl. rewrite update_first_absent by done. simpl.
      by rewrite last_snoc.
    + rewrite (update_one_calm 2); [|done|].
      2:{ left. apply given_None_truthy in Hgl, Hgs.
          destruct Hacc as [? | [? | ?]]; congruence. }
      simpl. rewrite update_first_absent by done. simpl.
      by rewrite last_snoc.
Qed.

Lemma editar_documento_not_found_witness :
  let w := mundo [(7, bem "A0" "Sala 1" "Ativo" [aquisicao])] [] true ∅ in
  let r := editar_documento "ZZ" (Some "Reitoria") None w in
  bens r.2 = bens w ∧
  last (stdout r.2) = Some "Bem 'ZZ' não encontrado ou nenhum dado para editar.".
Proof.
  intros w r.
  destruct (editar_documento_not_found w "ZZ" (Some "Reitoria") None) as [Hb Hl].
  - intros d Hd. apply list_elem_of_singleton in Hd. by subst d.
  - split; [exact Hb|]. apply Hl; [reflexivity|]. right. left. reflexivity.
Defined.

(** C4.  On a server that takes an empty [$set] (MongoDB 5.0 and later),
    [editar_documento] without a location and without a status still
    pushes a movement entry onto the matched asset: the history of "A1"
    grows from one entry to two, the new one lacking [from_location] and
    [to_location], and the call reports a successful edit. *)
Theorem editar_documento_no_arguments_pushes :
  let w := mundo [(8, bem "A1" "Sala 2" "Em Uso" [aquisicao])] [] true ∅ in
  let r := editar_documento "A1" None None w in
  r.1 = Ok () ∧
  bens r.2
  = [(8, bem "A1" "Sala 2" "Em Uso"
           [aquisicao;
            {| date := "2024-06-01 12:00:00"; type := "Movimentação";
               from_location := None; to_location := None;
               responsible := "Usuário App" |}])] ∧
  bens r.2 ≠ bens w ∧
  stdout r.2
  = ["Bem 'A1' editado com sucesso e histórico de movimentação atualizado."].
Proof. vm_compute. split_and!; done. Qed.

(** The same call in general: with the store answering, an existing asset
    gets the bare entry appended and keeps its location and status. *)
Lemma editar_documento_no_arguments_lenient w aid nl ns i d :
  truthy nl = false → truthy ns = false →
  lenient_empty_set w = true → calm 1 w →
  first_with_id aid (bens w) = Some (i, d) →
  bens (editar_documento aid nl ns w).2
  = <[i := (d.1, edited d.2 (location d.2) (status d.2)
                   {| date := clock w; type := "Movimentação";
                      from_location := None; to_location := None;
                      responsible := "Usuário App" |})]> (bens w).
Proof.
  intros Hnl Hns Hlen Hc Hf. unfold editar_documento.
  rewrite (given_truthy nl), (given_truthy ns) by done.
  unfold_monad. simpl.
  rewrite (update_one_calm 0) by auto. simpl.
  by rewrite (update_first_found _ _ _ i d).
Qed.

(** On a server that rejects an empty [$set] (before 5.0) the same call
    fails inside the [try]: nothing is written and the error is printed. *)
Lemma editar_documento_no_arguments_strict w aid nl ns :
  truthy nl = false → truthy ns = false →
  lenient_empty_set w = false → calm 1 w →
  let r := editar_documento aid nl ns w in
  r.1 = Ok () ∧ bens r.2 = bens w ∧
  last (stdout r.2)
  = Some ("Erro ao editar documento: " +:+
          "'$set' is empty. You must specify a field like so: {$set: {<field>: ...}}").
Proof.
  intros Hnl Hns Hlen Hc. simpl. unfold editar_documento.
  rewrite (given_truthy nl), (given_truthy ns) by done.
  unfold_monad. simpl. unfold update_one.
  rewrite (store_call_calm 0) by done. simpl. rewrite Hlen.
  rewrite bool_decide_true by done. simpl.
  by rewrite last_snoc.
Qed.

(** ** Bulk import *)

Lemma amostra_limit (limit : Z) (df : list row) :
  (0 ≤ limit < Z.of_nat (length df))%Z →
  length (amostra limit df) = Z.to_nat limit.
Proof.
  intros Hl. unfold amostra, df_head.
  rewrite !bool_decide_true by lia. rewrite length_take. lia.
Qed.

(** The function has no [return] with a value on any path. *)
Lemma importar_returns_None w path limit :
  (importar_csv_para_mongodb path limit w).1 = Ok PyNone.
Proof.
  unfold importar_csv_para_mongodb, path_exists, read_csv. unfold_monad. simpl.
  destruct (files w !! path) as [[msg|rows]|] eqn:Hf; simpl.
  - by rewrite Hf.
  - rewrite Hf.
    destruct (bool_decide _); simpl;
      (destruct (doc_of_row <$> _) as [|a docs] eqn:Hdocs; simpl; [done|]);
      unfold delete_many_all, insert_many;
      (step_store; [|done]); (step_store; done).
  - done.
Qed.

(** The collection after any call of the import, whatever the fault
    schedule, for an arbitrary property [P] of the list of documents: it is
    as before, or emptied (the insert failed after the delete), or replaced
    by the stamped sample. *)
Lemma importar_post (P : list stored → Prop) w path limit :
  P (bens w) →
  (∀ rows, files w !! path = Some (Table rows) →
           amostra limit rows ≠ [] → P []) →
  (∀ rows, files w !! path = Some (Table rows) →
           amostra limit rows ≠ [] →
           P (stamp (next_oid w) (doc_of_row <$> amostra limit rows))) →
  P (bens (importar_csv_para_mongodb path limit w).2).
Proof.
  intros H0 H1 H2.
  unfold importar_csv_para_mongodb, path_exists, read_csv. unfold_monad. simpl.
  destruct (files w !! path) as [[msg|rows]|] eqn:Hf; simpl.
  - by rewrite Hf.
  - specialize (H1 rows eq_refl). specialize (H2 rows eq_refl).
    unfold amostra in H1, H2.
    rewrite Hf.
    destruct (bool_decide _); simpl;
      (destruct (doc_of_row <$> _) as [|a docs] eqn:Hdocs; simpl; [done|]);
      unfold delete_many_all, insert_many;
      (step_store; [|done]);
      (step_store; [apply H2 | apply H1]);
      intros Hnil; by rewrite Hnil in Hdocs.
  - done.
Qed.

(** A successful import: the store answers both round trips and there is
    at least one row to import. *)
Lemma importar_calm w path limit rows :
  files w !! path = Some (Table rows) → calm 2 w →
  amostra limit rows ≠ [] →
  let r := importar_csv_para_mongodb path limit w in
  bens r.2 = stamp (next_oid w) (doc_of_row <$> amostra limit rows) ∧
  last (stdout r.2)
  = Some (pretty (length (amostra limit rows)) +:+
          " documentos importados com sucesso para o MongoDB.").
Proof.
  intros Hf Hc Hne. simpl.
  unfold importar_csv_para_mongodb, path_exists, read_csv. unfold_monad. simpl.
  rewrite Hf. rewrite bool_decide_true by eauto. simpl. rewrite ?Hf.
  unfold amostra in *.
  destruct (bool_decide _); simpl;
    (destruct (doc_of_row <$> _) as [|a docs] eqn:Hdocs; simpl;
     [by apply fmap_nil_inv in Hdocs|]);
    unfold delete_many_all;
    rewrite (store_call_calm 1) by done; simpl;
    apply calm_S in Hc as [Hc _];
    rewrite (insert_many_calm 0) by done; simpl;
    rewrite last_snoc, ?length_fmap, ?length_imap;
    apply (f_equal length) in Hdocs; rewrite length_fmap in Hdocs;
    simpl in Hdocs; by rewrite Hdocs.
Qed.

(** Nothing to import: the collection is not touched. *)
Lemma importar_nothing w path limit :
  (∀ rows, files w !! path = Some (Table rows) → amostra limit rows = []) →
  bens (importar_csv_para_mongodb path limit w).2 = bens w.
Proof.
  intros Hnil. apply importar_post; [done| |]; intros rows Hf Hne;
    by specialize (Hnil rows Hf).
Qed.

(** C1, as the code has it.  With the file readable and the store answering
    both round trips: when there is at least one row to import, the
    collection afterwards is exactly the stamped sample, so no document from
    before the call is left; when moreover [1 ≤ limit < rows], exactly
    [limit] documents are in it; when there is no row to import (empty file,
    or a limit that truncates to nothing), the [if documents:] guard skips
    the delete and the collection is as it was. *)
Theorem importar_replaces_when_nonempty
    (w : world) (path : string) (limit : Z) (rows : list row) :
  files w !! path = Some (Table rows) → calm 2 w →
  Forall (λ d, d.1 < next_oid w) (bens w) →
  let r := importar_csv_para_mongodb path limit w in
  let sample := amostra limit rows in
  (sample ≠ [] →
     bens r.2 = stamp (next_oid w) (doc_of_row <$> sample) ∧
     ∀ d, d ∈ bens w → d ∉ bens r.2) ∧
  ((1 ≤ limit < Z.of_nat (length rows))%Z →
     length (bens r.2) = Z.to_nat limit ∧
     ∀ d, d ∈ bens w → d ∉ bens r.2) ∧
  (sample = [] → bens r.2 = bens w).
Proof.
  intros Hf Hc Hwf r sample.
  assert (Hrep : sample ≠ [] →
     bens r.2 = stamp (next_oid w) (doc_of_row <$> sample) ∧
     ∀ d, d ∈ bens w → d ∉ bens r.2).
  { intros Hne. destruct (importar_calm w path limit rows Hf Hc Hne) as [Hb _].
    split; [exact Hb|]. intros d Hd Hd'. unfold r in Hd'. rewrite Hb in Hd'.
    apply stamp_fresh in Hd'. rewrite Forall_forall in Hwf.
    specialize (Hwf d Hd). simpl in Hwf. lia. }
  split_and!; [done| |].
  - intros Hl.
    assert (Hlen : length sample = Z.to_nat limit) by (apply amostra_limit; lia).
    assert (Hne : sample ≠ []).
    { intros Hnil. rewrite Hnil in Hlen. simpl in Hlen. lia. }
    destruct (Hrep Hne) as [Hb Hfresh]. split; [|done].
    by rewrite Hb, stamp_length, length_fmap.
  - intros Hnil. apply importar_nothing. intros rows' Hf'.
    rewrite Hf in Hf'. by simplify_eq.
Qed.

Lemma importar_replaces_when_nonempty_witness :
  let w := mundo [(1, bem "A1" "Sala" "Ativo" [aquisicao])] [] true
             {[ "products.csv" := Table [linha "10" "x"; linha "11" "y";
                                          linha "12" "z"] ]} in
  let r := importar_csv_para_mongodb "products.csv" 2 w in
  length (bens r.2) = 2 ∧ ∀ d, d ∈ bens w → d ∉ bens r.2.
Proof.
  intros w r.
  destruct (importar_replaces_when_nonempty w "products.csv" 2
              [linha "10" "x"; linha "11" "y"; linha "12" "z"])
    as (_ & H & _); [reflexivity | reflexivity | | ].
  - repeat constructor.
  - apply H. simpl. lia.
Defined.

(** C1 as stated fails.  The source has two rows, which is more than the
    limit 0, yet the document that was in the collection before the call is
    still there afterwards; the same happens with the default limit when the
    file has a header and no rows. *)
Lemma importar_keeps_collection_on_empty_sample :
  let old := (1, bem "A1" "Sala" "Ativo" [aquisicao]) in
  let w := mundo [old] [] true
             {[ "products.csv" := Table [linha "10" "x"; linha "11" "y"];
                "empty.csv" := Table [] ]} in
  let r := importar_csv_para_mongodb "products.csv" 0 w in
  let r' := importar_csv_para_mongodb "empty.csv" 5000 w in
  old ∈ bens w ∧
  old ∈ bens r.2 ∧ bens r.2 = bens w ∧
  old ∈ bens r'.2 ∧ bens r'.2 = bens w.
Proof. vm_compute. split_and!; done || constructor. Qed.

(** C3, as the code has it.  The import never returns a count: every call
    evaluates to [None].  The number of inserted documents is only printed:
    after a successful import of [n] documents the collection holds [n]
    documents and the last line printed starts with [n]. *)
Theorem importar_prints_count_returns_None
    (w : world) (path : string) (limit : Z) :
  let r := importar_csv_para_mongodb path limit w in
  r.1 = Ok PyNone ∧
  ∀ rows, files w !! path = Some (Table rows) → calm 2 w →
          amostra limit rows ≠ [] →
          let n := length (amostra limit rows) in
          length (bens r.2) = n ∧
          last (stdout r.2)
          = Some (pretty n +:+ " documentos importados com sucesso para o MongoDB.").
Proof.
  simpl. split; [apply importar_returns_None|].
  intros rows Hf Hc Hne.
  destruct (importar_calm w path limit rows Hf Hc Hne) as [Hb Hl].
  split; [|done]. by rewrite Hb, stamp_length, length_fmap.
Qed.

Lemma importar_prints_count_returns_None_witness :
  let w := mundo [] [] true
             {[ "products.csv" := Table [linha "10" "x"; linha "11" "y";
                                          linha "12" "z"] ]} in
  let r := importar_csv_para_mongodb "products.csv" 5000 w in
  length (bens r.2) = 3 ∧
  last (stdout r.2) = Some "3 documentos importados com sucesso para o MongoDB.".
Proof.
  intros w r.
  destruct (importar_prints_count_returns_None w "products.csv" 5000) as [_ H].
  apply (H [linha "10" "x"; linha "11" "y"; linha "12" "z"]);
    [reflexivity | reflexivity | done].
Defined.

(** C3 as stated fails: this import inserts two documents, and the call
    evaluates to [None], not to the integer 2. *)
Lemma importar_does_not_return_count :
  let w := mundo [] [] true
             {[ "products.csv" := Table [linha "10" "x"; linha "11" "y";
                                          linha "12" "z"] ]} in
  let r := importar_csv_para_mongodb "products.csv" 2 w in
  length (bens r.2) = 2 ∧ r.1 = Ok PyNone ∧ r.1 ≠ Ok (PyInt 2).
Proof. vm_compute. split_and!; done. Qed.

(** ** Store failures *)

(** C2.  A store failure is not always caught.  [editar_documento] reads
    the current document with [find_one] before its [try], and
    [inserir_documento_extra] counts the documents before its [try]: when
    that round trip fails, the exception leaves the function and nothing is
    printed. *)
Theorem store_failure_escapes_edit_and_insert :
  let w := mundo [(8, bem "A1" "Sala 2" "Em Uso" [aquisicao])]
             [Some "connection closed"] true ∅ in
  editar_documento "A1" (Some "Reitoria") None w
    = (Raised "connection closed", tick w) ∧
  editar_documento "A1" None (Some "Desativado") w
    = (Raised "connection closed", tick w) ∧
  inserir_documento_extra 5 w = (Raised "connection closed", tick w) ∧
  stdout (tick w) = [].
Proof. vm_compute. split_and!; done. Qed.

(** The same in general: a failure of the first round trip leaves
    [editar_documento] whenever it has a field to set, and
    [inserir_documento_extra] whenever it has a document to build. *)
Lemma editar_documento_raises w aid new_location new_status msg fs :
  faults w = Some msg :: fs →
  truthy new_location = true ∨ truthy new_status = true →
  editar_documento aid new_location new_status w = (Raised msg, tick w).
Proof.
  intros Hf Hargs. unfold editar_documento, find_one. unfold_monad. simpl.
  destruct (given new_location) as [loc|] eqn:Hgl; simpl.
  - by rewrite (store_call_fault _ _ msg fs).
  - destruct (given new_status) as [st|] eqn:Hgs; simpl.
    + by rewrite (store_call_fault _ _ msg fs).
    + apply given_None_truthy in Hgl, Hgs. destruct Hargs; congruence.
Qed.

Lemma inserir_documento_extra_raises w n msg fs :
  faults w = Some msg :: fs → (1 ≤ n)%Z →
  inserir_documento_extra n w = (Raised msg, tick w).
Proof.
  intros Hf Hn. unfold inserir_documento_extra.
  destruct (Z.to_nat n) as [|k] eqn:Hk; [lia|].
  unfold_monad. simpl. unfold count_documents. unfold_monad.
  by rewrite (store_call_fault _ _ msg fs).
Qed.

Lemma try_except_returns {A} (m : M A) (h : string → M A) w :
  (∀ e w', ∃ a, (h e w').1 = Ok a) → ∃ a, (try_except m h w).1 = Ok a.
Proof.
  intros Hh. unfold try_except. destruct (m w) as [[a|e] w']; simpl; eauto.
Qed.

Lemma bind_print {A} (line : string) (m : M A) w :
  (print line;; m) w = m (set_stdout (λ out, out ++ [line]) w).
Proof. done. Qed.

(** X22.  No exception leaves a guarded operation, whatever the fault schedule. *)
Lemma guarded_never_raises o w : guarded o = true → (run_op o w).1 = None.
Proof.
  destruct o as [p n| |? ? ?|k|l|]; try done; intros _; simpl; unfold escaped.
  - by rewrite importar_returns_None.
  - unfold excluir_documento.
    edestruct (try_except_returns (A:=())) as [a ->]; [|done].
    intros e w'. by eexists.
  - unfold buscar_bens_por_localizacao. rewrite bind_print.
    edestruct (try_except_returns (A:=list stored)) as [a ->]; [|done].
    intros e w'. by eexists.
  - unfold contar_bens_por_localizacao. rewrite bind_print.
    edestruct (try_except_returns (A:=list (option string * nat))) as [a ->];
      [|done].
    intros e w'. by eexists.
Qed.

(** With the store answering, [editar_documento] and
    [inserir_documento_extra] return normally as well. *)
Lemma editar_documento_calm w aid new_location new_status i d :
  calm 3 w → update_accepted w new_location new_status →
  first_with_id aid (bens w) = Some (i, d) →
  let r := editar_documento aid new_location new_status w in
  r.1 = Ok () ∧
  ∃ fields e, bens r.2 = <[i := (d.1, apply_update fields e d.2)]> (bens w).
Proof.
  intros Hc Hacc Hf. simpl. unfold editar_documento. unfold_monad. simpl.
  destruct (given new_location) as [loc|] eqn:Hgl;
    destruct (given new_status) as [st|] eqn:Hgs; simpl.
  - rewrite (find_one_calm 2) by done. simpl.
    apply calm_S in Hc as [Hc _].
    rewrite (find_one_calm 1) by done. simpl.
    apply calm_S in Hc as [Hc _].
    rewrite (update_one_calm 0); [|done|].
    2:{ right. intros Hempty. apply (f_equal (.!! "status")) in Hempty.
        by rewrite lookup_insert_eq in Hempty. }
    simpl. rewrite (update_first_found _ _ _ i d) by done. simpl. eauto.
  - rewrite (find_one_calm 2) by done. simpl.
    apply calm_S in Hc as [Hc _].
    rewrite (update_one_calm 1); [|done|].
    2:{ right. intros Hempty. apply (f_equal (.!! "location")) in Hempty.
        by rewrite lookup_insert_eq in Hempty. }
    simpl. rewrite (update_first_found _ _ _ i d) by done. simpl. eauto.
  - rewrite (find_one_calm 2) by done. simpl.
    apply calm_S in Hc as [Hc _].
    rewrite (update_one_calm 1); [|done|].
    2:{ right. intros Hempty. apply (f_equal (.!! "status")) in Hempty.
        by rewrite lookup_insert_eq in Hempty. }
    simpl. rewrite (update_first_found _ _ _ i d) by done. simpl. eauto.
  - rewrite (update_one_calm 2); [|done|].
    2:{ left. apply given_None_truthy in Hgl, Hgs.
        destruct Hacc as [? | [? | ?]]; congruence. }
    simpl. rewrite (update_first_found _ _ _ i d) by done. simpl. eauto.
Qed.

(** ** Counting by location *)

#[global] Instance count_desc_total : Total count_desc.
Proof. intros x y. unfold count_desc. lia. Qed.
#[global] Instance count_desc_trans : Transitive count_desc.
Proof. intros x y z. unfold count_desc. lia. Qed.

Section grouping.
Implicit Types (k : option string) (acc : list (option string * nat)).

Lemma tally_bump k k' acc :
  tally k' (bump k acc) = tally k' acc + (if bool_decide (k = k') then 1 else 0).
Proof.
  induction acc as [|[k0 c] acc IH]; simpl.
  - repeat case_bool_decide; simplify_eq; done.
  - destruct (bool_decide (k0 = k)) eqn:Hk; simpl.
    + apply bool_decide_eq_true in Hk as ->.
      repeat case_bool_decide; simplify_eq; lia.
    + rewrite IH. apply bool_decide_eq_false in Hk.
      repeat case_bool_decide; simplify_eq; lia.
Qed.

Lemma bump_keys k acc :
  (bump k acc).*1 = if bool_decide (k ∈ acc.*1) then acc.*1 else acc.*1 ++ [k].
Proof.
  induction acc as [|[k0 c] acc IH]; csimpl.
  - done.
  - destruct (bool_decide (k0 = k)) eqn:Hk; csimpl.
    + apply bool_decide_eq_true in Hk as ->.
      rewrite bool_decide_true; [done|]. by left.
    + apply bool_decide_eq_false in Hk. rewrite IH.
      destruct (bool_decide (k ∈ acc.*1)) eqn:Hin.
      * apply bool_decide_eq_true in Hin.
        rewrite bool_decide_true; [done|]. by right.
      * apply bool_decide_eq_false in Hin.
        rewrite bool_decide_false; [done|].
        rewrite elem_of_cons. intros [-> | ?]; done.
Qed.

Lemma bump_NoDup k acc : NoDup acc.*1 → NoDup (bump k acc).*1.
Proof.
  intros Hnd. rewrite bump_keys. case_bool_decide; [done|].
  apply NoDup_app. split_and!; [done| |apply NoDup_singleton].
  intros x Hx ->%list_elem_of_singleton. done.
Qed.

Lemma bump_positive k acc :
  Forall (λ p, 0 < p.2) acc → Forall (λ p, 0 < p.2) (bump k acc).
Proof.
  induction 1 as [|[k0 c] acc Hc Hacc IH]; simpl.
  - repeat constructor.
  - case_bool_decide; constructor; simpl in *; try done. lia.
Qed.

(** In an accumulator without repeated keys and with positive counts, the
    pairs are exactly the non-zero tallies. *)
Lemma elem_of_tally k c acc :
  NoDup acc.*1 → Forall (λ p, 0 < p.2) acc →
  (k, c) ∈ acc ↔ tally k acc = c ∧ 0 < c.
Proof.
  induction acc as [|[k0 c0] acc IH]; simpl; intros Hnd Hpos.
  - split; [by intros ?%elem_of_nil | lia].
  - apply NoDup_cons in Hnd as [Hk0 Hnd].
    apply Forall_cons in Hpos as [Hc0 Hpos]. simpl in Hc0.
    rewrite elem_of_cons, (IH Hnd Hpos). case_bool_decide as Hk.
    + subst k0. split.
      * intros [[= ->] | [Ht Hc]]; [done|].
        exfalso. apply Hk0. apply list_elem_of_fmap.
        exists (k, c). split; [done|]. apply (IH Hnd Hpos). done.
      * intros [-> _]. by left.
    + split.
      * intros [[= -> ->] | ?]; done.
      * intros ?. by right.
Qed.

Lemma group_by_location_snoc ds d :
  group_by_location (ds ++ [d]) = bump (location d.2) (group_by_location ds).
Proof. unfold group_by_location. by rewrite foldl_snoc. Qed.

Lemma count_at_snoc k ds d :
  count_at k (ds ++ [d])
  = count_at k ds + (if bool_decide (location d.2 = k) then 1 else 0).
Proof.
  unfold count_at. rewrite filter_app, length_app. f_equal.
  rewrite filter_cons, filter_nil.
  case_decide; case_bool_decide; done.
Qed.

Lemma group_by_location_spec ds :
  NoDup (group_by_location ds).*1 ∧
  Forall (λ p, 0 < p.2) (group_by_location ds) ∧
  ∀ k, tally k (group_by_location ds) = count_at k ds.
Proof.
  induction ds as [|d ds (Hnd & Hpos & Ht)] using rev_ind.
  - split_and!; [constructor | constructor | done].
  - rewrite group_by_location_snoc. split_and!.
    + by apply bump_NoDup.
    + by apply bump_positive.
    + intros k. by rewrite tally_bump, Ht, count_at_snoc.
Qed.

Lemma count_at_locations k ds :
  count_at k ds = length (filter (λ l, l = k) ((λ d, location d.2) <$> ds)).
Proof.
  unfold count_at. induction ds as [|d ds IH]; [done|].
  rewrite fmap_cons, !filter_cons.
  repeat case_decide; simpl; try done; by rewrite IH.
Qed.
End grouping.

Lemma print_counts_spec l w0 :
  (print_counts l w0).1 = Ok () ∧ bens (print_counts l w0).2 = bens w0.
Proof.
  revert w0. induction l as [|y l IH]; intros w0; simpl; [done|].
  unfold_monad. simpl.
  match goal with |- context [print_counts l ?w1] =>
    destruct (IH w1) as [H1 H2]; destruct (print_counts l w1) as [[[]|e] w2]
  end; simpl in *; done.
Qed.

Lemma contar_bens_por_localizacao_calm w :
  calm 1 w →
  let r := contar_bens_por_localizacao w in
  r.1 = Ok (merge_sort count_desc (group_by_location (bens w))) ∧
  bens r.2 = bens w.
Proof.
  intros Hc. simpl. unfold contar_bens_por_localizacao. rewrite bind_print.
  unfold aggregate_count_by_location. unfold_monad.
  rewrite (store_call_calm 0) by done. simpl.
  destruct (merge_sort count_desc (group_by_location (bens w))) as [|x rest];
    [done|].
  match goal with |- context [print_counts ?l ?w1] =>
    destruct (print_counts_spec l w1) as [H1 H2];
    destruct (print_counts l w1) as [[[]|e] w2]
  end; simpl in *; done.
Qed.

(** C9.  With the store answering, [contar_bens_por_localizacao] returns one
    pair per location that occurs in the collection, each with the number
    of documents at that location, in descending order of count, and leaves
    the collection alone.  In particular, when three documents are at [A]
    and one at [B], in whatever order they are stored, the result is exactly
    [(A, 3); (B, 1)]. *)
Theorem contar_bens_por_localizacao_counts (w : world) :
  calm 1 w →
  let r := contar_bens_por_localizacao w in
  ∃ results,
    r.1 = Ok results ∧
    bens r.2 = bens w ∧
    StronglySorted count_desc results ∧
    NoDup results.*1 ∧
    (∀ k c, (k, c) ∈ results ↔ c = count_at k (bens w) ∧ 0 < c) ∧
    (∀ A B : string,
       A ≠ B →
       (λ d, location d.2) <$> bens w ≡ₚ [Some A; Some A; Some A; Some B] →
       results = [(Some A, 3); (Some B, 1)]).
Proof.
  intros Hc r.
  set (results := merge_sort count_desc (group_by_location (bens w))).
  assert (Hperm : results ≡ₚ group_by_location (bens w))
    by apply merge_sort_Permutation.
  destruct (group_by_location_spec (bens w)) as (Hnd & Hpos & Ht).
  assert (Hsorted : StronglySorted count_desc results)
    by (apply StronglySorted_merge_sort; apply _).
  assert (Hkeys : NoDup results.*1).
  { by rewrite Hperm. }
  assert (Hmem : ∀ k c, (k, c) ∈ results ↔ c = count_at k (bens w) ∧ 0 < c).
  { intros k c. rewrite Hperm, (elem_of_tally k c _ Hnd Hpos), Ht.
    split; [by intros [<- ?] | by intros [-> ?]]. }
  destruct (contar_bens_por_localizacao_calm w Hc) as [Hr1 Hr2].
  exists results. split_and!; try done.
  - intros A B HAB Hlocs.
    assert (HcA : count_at (Some A) (bens w) = 3).
    { rewrite count_at_locations, Hlocs. rewrite !filter_cons, filter_nil.
      repeat case_decide; simplify_eq; done. }
    assert (HcB : count_at (Some B) (bens w) = 1).
    { rewrite count_at_locations, Hlocs. rewrite !filter_cons, filter_nil.
      repeat case_decide; simplify_eq; done. }
    assert (Hother : ∀ k, k ≠ Some A → k ≠ Some B → count_at k (bens w) = 0).
    { intros k HkA HkB. rewrite count_at_locations, Hlocs.
      rewrite !filter_cons, filter_nil. repeat case_decide; simplify_eq; done. }
    assert (Hexact : ∀ p, p ∈ results ↔ p ∈ [(Some A, 3); (Some B, 1)]).
    { intros [k c]. rewrite Hmem, !elem_of_cons, elem_of_nil. split.
      - intros [-> Hpos'].
        destruct (decide (k = Some A)) as [-> | HkA]; [left; by rewrite HcA|].
        destruct (decide (k = Some B)) as [-> | HkB]; [right; left; by rewrite HcB|].
        rewrite Hother in Hpos' by done. lia.
      - intros [[= -> ->] | [[= -> ->] | []]]; [rewrite HcA | rewrite HcB]; lia. }
    assert (Hp2 : results ≡ₚ [(Some A, 3); (Some B, 1)]).
    { apply NoDup_Permutation; [|by apply NoDup_cons_2;
        [rewrite list_elem_of_singleton; congruence | apply NoDup_singleton]|done].
      eapply NoDup_fmap_1, Hkeys. }
    pose proof (Permutation_length Hp2) as Hlen.
    destruct results as [|x [|y [|? ?]]]; simpl in Hlen; try lia.
    assert (Hx : x ∈ [(Some A, 3); (Some B, 1)]) by (apply Hexact; by left).
    assert (Hy : y ∈ [(Some A, 3); (Some B, 1)]) by (apply Hexact; right; by left).
    apply NoDup_fmap_1 in Hkeys as Hnd2.
    apply NoDup_cons in Hnd2 as [Hxy _]. rewrite list_elem_of_singleton in Hxy.
    apply StronglySorted_cons in Hsorted as [Hhd _].
    apply Forall_cons in Hhd as [Hhd _]. unfold count_desc in Hhd.
    rewrite !elem_of_cons, elem_of_nil in Hx, Hy.
    destruct Hx as [-> | [-> | []]], Hy as [-> | [-> | []]];
      simpl in Hhd; try done; lia.
Qed.

Lemma contar_bens_por_localizacao_counts_witness :
  (contar_bens_por_localizacao
     (mundo [(1, bem "A1" "Sala" "Ativo" [aquisicao]);
             (2, bem "A2" "Lab" "Ativo" [aquisicao]);
             (3, bem "A3" "Lab" "Ativo" [aquisicao]);
             (4, bem "A4" "Lab" "Ativo" [aquisicao])] [] true ∅)).1
  = Ok [(Some "Lab", 3); (Some "Sala", 1)].
Proof.
  destruct (contar_bens_por_localizacao_counts
              (mundo [(1, bem "A1" "Sala" "Ativo" [aquisicao]);
                      (2, bem "A2" "Lab" "Ativo" [aquisicao]);
                      (3, bem "A3" "Lab" "Ativo" [aquisicao]);
                      (4, bem "A4" "Lab" "Ativo" [aquisicao])] [] true ∅))
    as (results & Hr & _ & _ & _ & _ & Hex); [reflexivity|].
  rewrite Hr. f_equal. apply Hex; [done|].
  simpl. apply Permutation_cons_append.
Defined.

(** ** What every operation does to the collection *)

Lemma novos_bens_inv range : ∀ acc w,
  let r := novos_bens range acc w in
  bens r.2 = bens w ∧ next_oid r.2 = next_oid w ∧
  ∀ docs, r.1 = Ok docs → docs = acc ++ (novo_bem (length (bens w)) <$> range).
Proof.
  induction range as [|i range IH]; intros acc w; simpl.
  - split_and!; [done|done|]. intros docs [= <-]. by rewrite app_nil_r.
  - unfold_monad. unfold count_documents. step_store; [|done].
    destruct (IH (acc ++ [novo_bem (length (bens w)) i]) (tick w))
      as (Hb & Hn & Hd).
    split_and!; [done|done|]. intros docs Hdocs.
    rewrite (Hd docs Hdocs). by rewrite <-(assoc_L (++)).
Qed.

Lemma inserir_documento_extra_post (P : list stored → Prop) w n :
  P (bens w) →
  (∀ batch, Forall (λ a, ∃ i, a = novo_bem (length (bens w)) i) batch →
            P (bens w ++ stamp (next_oid w) batch)) →
  P (bens (inserir_documento_extra n w).2).
Proof.
  intros H0 H1. unfold inserir_documento_extra. unfold_monad.
  destruct (novos_bens_inv (seq 0 (Z.to_nat n)) [] w) as (Hb & Hn & Hd).
  destruct (novos_bens _ _ w) as [[docs|e] w1]; simpl in *; [|by rewrite Hb].
  specialize (Hd docs eq_refl). simpl in Hd.
  unfold insert_many. destruct docs as [|a docs]; simpl; [by rewrite Hb|].
  step_store; [|by rewrite Hb]. rewrite Hb, Hn. apply H1.
  rewrite Hd. apply Forall_fmap, Forall_forall. intros i _. by exists i.
Qed.

Lemma excluir_documento_post (P : list stored → Prop) w aid :
  P (bens w) → P (remove_first aid (bens w)).1 →
  P (bens (excluir_documento aid w).2).
Proof.
  intros H0 H1. unfold excluir_documento, delete_one. unfold_monad.
  step_store; [|done].
  destruct (remove_first aid (bens w)) as [rest k]; simpl in *.
  by destruct (bool_decide _).
Qed.

Lemma remove_first_elem_of k ds d : d ∈ (remove_first k ds).1 → d ∈ ds.
Proof.
  induction ds as [|x ds IH]; simpl; [done|].
  destruct (has_asset_id k x); simpl.
  - by right.
  - destruct (remove_first k ds) as [rest m]; simpl in *.
    rewrite !elem_of_cons. intros [-> | ?]; auto.
Qed.

Lemma print_assets_bens l w0 : bens (print_assets l w0).2 = bens w0.
Proof.
  revert w0. induction l as [|y l IH]; intros w0; simpl; [done|].
  unfold_monad. unfold subscript_status. destruct (status y.2); simpl; [|done].
  by rewrite IH.
Qed.

Lemma buscar_bens_por_localizacao_bens w loc :
  bens (buscar_bens_por_localizacao loc w).2 = bens w.
Proof.
  unfold buscar_bens_por_localizacao. rewrite bind_print.
  unfold find_by_location. unfold_monad. step_store; [|done].
  destruct (filter _ _) as [|x rest]; [done|].
  match goal with |- context [print_assets ?l ?w1] =>
    pose proof (print_assets_bens l w1) as Hp;
    destruct (print_assets l w1) as [[u|e] w2]
  end; simpl in *; done.
Qed.

Lemma contar_bens_por_localizacao_bens w :
  bens (contar_bens_por_localizacao w).2 = bens w.
Proof.
  unfold contar_bens_por_localizacao. rewrite bind_print.
  unfold aggregate_count_by_location. unfold_monad. step_store; [|done].
  destruct (merge_sort _ _) as [|x rest]; [done|].
  match goal with |- context [print_counts ?l ?w1] =>
    destruct (print_counts_spec l w1) as [_ Hp];
    destruct (print_counts l w1) as [[u|e] w2]
  end; simpl in *; done.
Qed.

Lemma stamp_elem_of n docs d : d ∈ stamp n docs → n ≤ d.1 ∧ d.2 ∈ docs.
Proof.
  unfold stamp. intros (i & a & -> & Hi)%elem_of_lookup_imap. simpl.
  split; [lia|]. by eapply list_elem_of_lookup_2.
Qed.

Lemma elem_of_insert_inv {A} (l : list A) i x y :
  y ∈ <[i:=x]> l → y = x ∨ y ∈ l.
Proof.
  intros [j Hj]%list_elem_of_lookup.
  apply list_lookup_insert_Some in Hj as [(-> & -> & _) | [_ Hj]]; [by left|].
  right. by eapply list_elem_of_lookup_2.
Qed.

(** ** History invariants *)

Section evolves.
Variable w : world.
Hypothesis Hinv : Forall (λ d, acquired d.2) (bens w).

Lemma evolves_same o : evolves o w (bens w).
Proof. split; [done|]. intros d' Hd'. right. by left. Qed.

Lemma evolves_nil o : evolves o w [].
Proof. split; [constructor|]. by intros d' ?%elem_of_nil. Qed.

Lemma evolves_sub o after :
  (∀ d, d ∈ after → d ∈ bens w) → evolves o w after.
Proof.
  intros Hsub. split.
  - apply Forall_forall. intros d Hd.
    apply (proj1 (Forall_forall _ _) Hinv). auto.
  - intros d' Hd'. right. left. auto.
Qed.

Lemma evolves_created o docs :
  creates o = true →
  Forall (λ a, ∃ e, movement_history a = [e] ∧ type e = "Aquisição") docs →
  evolves o w (bens w ++ stamp (next_oid w) docs) ∧
  evolves o w (stamp (next_oid w) docs).
Proof.
  intros Ho Hdocs. rewrite Forall_forall in Hdocs.
  assert (Hnew : ∀ d', d' ∈ stamp (next_oid w) docs →
            acquired d'.2 ∧ provenance o w d').
  { intros d' [Hfresh Hin]%stamp_elem_of.
    destruct (Hdocs _ Hin) as (e & He & Ht). split.
    - by exists e, [].
    - left. eauto. }
  split; split.
  - apply Forall_app. split; [done|].
    apply Forall_forall. intros d' Hd'. by apply Hnew.
  - intros d' [Hd' | Hd']%elem_of_app; [right; by left | by apply Hnew].
  - apply Forall_forall. intros d' Hd'. by apply Hnew.
  - intros d' Hd'. by apply Hnew.
Qed.

Lemma evolves_edited o i d fields e :
  is_edit o = true → bens w !! i = Some d →
  evolves o w (<[i := (d.1, apply_update fields e d.2)]> (bens w)).
Proof.
  intros Ho Hi.
  assert (Hd : d ∈ bens w) by (by eapply list_elem_of_lookup_2).
  split.
  - apply Forall_insert; [done|].
    destruct (proj1 (Forall_forall _ _) Hinv d Hd) as (e0 & rest & Hh & Ht).
    exists e0, (rest ++ [e]). simpl. by rewrite Hh.
  - intros d' [-> | Hd']%elem_of_insert_inv.
    + right. right. split; [done|]. by exists d, e.
    + right. by left.
Qed.
End evolves.

(** C8.  Starting from a collection in which every history begins with an
    acquisition entry, after any operation, whatever the store does: every
    history still begins with an acquisition entry; every document is either
    new (its history is the acquisition entry alone), or an untouched
    document from before, or, after an edit, a document from before with
    one entry added at the end.  An edit changes at most one document, by
    appending exactly one entry, and does so whenever the asset exists and
    the store serves the call. *)
Theorem history_is_append_only (o : op) (w : world) :
  Forall (λ d, acquired d.2) (bens w) →
  let w' := (run_op o w).2 in
  Forall (λ d, acquired d.2) (bens w') ∧
  (∀ d', d' ∈ bens w' → provenance o w d') ∧
  (∀ aid nl ns, o = Edit aid nl ns →
     (bens w' = bens w ∨
      ∃ i d a' e, bens w !! i = Some d ∧
                  bens w' = <[i := (d.1, a')]> (bens w) ∧
                  movement_history a' = movement_history d.2 ++ [e]) ∧
     (∀ i d, calm 3 w → update_accepted w nl ns →
             first_with_id aid (bens w) = Some (i, d) →
             ∃ a' e, bens w' = <[i := (d.1, a')]> (bens w) ∧
                     movement_history a' = movement_history d.2 ++ [e])).
Proof.
  intros Hinv w'.
  assert (Hev : evolves o w (bens w')).
  { unfold w'. destruct o as [p n|n|aid nl ns|aid|loc|]; simpl.
    - apply importar_post.
      + by apply evolves_same.
      + intros. apply evolves_nil.
      + intros rows _ _. apply evolves_created; [done|done|].
        apply Forall_fmap, Forall_forall. intros r _. simpl. eauto.
    - apply inserir_documento_extra_post.
      + by apply evolves_same.
      + intros batch Hbatch. apply evolves_created; [done|done|].
        eapply Forall_impl; [exact Hbatch|]. intros a [i ->]. simpl. eauto.
    - apply editar_documento_post.
      + by apply evolves_same.
      + intros i d fields e [Hi _]%first_with_id_lookup.
        by apply evolves_edited.
    - apply excluir_documento_post.
      + by apply evolves_same.
      + apply evolves_sub; [done|]. apply remove_first_elem_of.
    - rewrite buscar_bens_por_localizacao_bens. by apply evolves_same.
    - rewrite contar_bens_por_localizacao_bens. by apply evolves_same. }
  destruct Hev as [H1 H2]. split_and!; [done|done|].
  intros aid nl ns ->. unfold w'. simpl. split.
  - destruct (editar_documento_bens w aid nl ns) as [Hb | (i & d & fields & e & Hf & Hb)];
      [by left|].
    right. exists i, d, (apply_update fields e d.2), e.
    apply first_with_id_lookup in Hf as [Hi _]. done.
  - intros i d Hc Hacc Hf.
    destruct (editar_documento_calm w aid nl ns i d Hc Hacc Hf)
      as [_ (fields & e & Hb)].
    by exists (apply_update fields e d.2), e.
Qed.

Lemma history_is_append_only_witness :
  let w := mundo [(7, bem "A0" "Sala 1" "Ativo" [aquisicao]);
                  (8, bem "A1" "Sala 2" "Em Uso" [aquisicao])] [] true ∅ in
  Forall (λ d, acquired d.2)
    (bens (run_op (Edit "A1" (Some "Reitoria") None) w).2).
Proof.
  intros w.
  apply (history_is_append_only (Edit "A1" (Some "Reitoria") None) w).
  repeat constructor; by exists aquisicao, [].
Defined.

(** * Further properties of the operations *)

Lemma quiet_calm n w : quiet w → calm n w.
Proof. unfold quiet, calm. intros ->. by destruct n. Qed.

Ltac calm_from Hq :=
  unfold calm; simpl; rewrite ?Hq; reflexivity.

(** ** Import *)

Lemma amostra_cases (limit : Z) (rows : list row) :
  ((0 ≤ limit < Z.of_nat (length rows))%Z →
   amostra limit rows = take (Z.to_nat limit) rows) ∧
  ((Z.of_nat (length rows) ≤ limit)%Z → amostra limit rows = rows) ∧
  ((limit < 0)%Z →
   amostra limit rows = take (length rows - Z.to_nat (- limit)) rows).
Proof.
  unfold amostra, df_head. split_and!; intros Hl.
  - by rewrite !bool_decide_true by lia.
  - by rewrite bool_decide_false by lia.
  - rewrite bool_decide_true by lia. by rewrite bool_decide_false by lia.
Qed.



(** The world after a successful import, when the store answers every
    call. *)
Lemma importar_quiet w path limit rows :
  files w !! path = Some (Table rows) → quiet w →
  amostra limit rows ≠ [] →
  let r := importar_csv_para_mongodb path limit w in
  bens r.2 = stamp (next_oid w) (doc_of_row <$> amostra limit rows) ∧
  next_oid r.2 = next_oid w + length (amostra limit rows) ∧
  quiet r.2 ∧ files r.2 = files w ∧
  lenient_empty_set r.2 = lenient_empty_set w.
Proof.
  intros Hf Hq Hne. simpl.
  unfold importar_csv_para_mongodb, path_exists, read_csv. unfold_monad. simpl.
  rewrite Hf. rewrite bool_decide_true by eauto. simpl. rewrite ?Hf.
  unfold amostra in *. unfold quiet in *.
  destruct (bool_decide _); simpl;
    (destruct (doc_of_row <$> _) as [|a docs] eqn:Hdocs; simpl;
     [by apply fmap_nil_inv in Hdocs|]);
    unfold delete_many_all;
    rewrite (store_call_calm 0) by calm_from Hq; simpl;
    rewrite (insert_many_calm 0) by (done || calm_from Hq); simpl;
    rewrite Hq; apply (f_equal length) in Hdocs;
    rewrite length_fmap in Hdocs; simpl in Hdocs; rewrite Hdocs; done.
Qed.

(** X2.  Running the import again on the same file replaces the collection by
    the same documents: same fields, in the same order, under new [_id]s. *)
Theorem importar_twice_same_documents
    (w : world) (path : string) (limit : Z) (rows : list row) :
  files w !! path = Some (Table rows) → quiet w →
  amostra limit rows ≠ [] →
  let w1 := (importar_csv_para_mongodb path limit w).2 in
  let w2 := (importar_csv_para_mongodb path limit w1).2 in
  (bens w2).*2 = (bens w1).*2 ∧
  length (bens w2) = length (bens w1) ∧
  ∀ d, d ∈ bens w1 → d ∉ bens w2.
Proof.
  intros Hf Hq Hne w1 w2.
  destruct (importar_quiet w path limit rows Hf Hq Hne) as (Hb1 & Hn1 & Hq1 & Hf1 & _).
  fold w1 in Hb1, Hn1, Hq1, Hf1.
  assert (Hf' : files w1 !! path = Some (Table rows)) by (by rewrite Hf1).
  destruct (importar_quiet w1 path limit rows Hf' Hq1 Hne) as (Hb2 & _).
  fold w2 in Hb2.
  split_and!.
  - by rewrite Hb1, Hb2, !stamp_snd.
  - by rewrite Hb1, Hb2, !stamp_length.
  - intros d Hd1 Hd2. rewrite Hb1 in Hd1. rewrite Hb2 in Hd2.
    apply stamp_elem_of in Hd2 as [Hge _].
    unfold stamp in Hd1. apply elem_of_lookup_imap in Hd1 as (i & a & -> & Hi).
    apply lookup_lt_Some in Hi. rewrite length_fmap in Hi.
    simpl in Hge. lia.
Qed.

Lemma importar_twice_same_documents_witness :
  let w := mundo [(1, bem "A1" "Sala" "Ativo" [aquisicao])] [] true
             {[ "products.csv" := Table [linha "10" "x"; linha "11" "y"] ]} in
  let w1 := (importar_csv_para_mongodb "products.csv" 5000 w).2 in
  let w2 := (importar_csv_para_mongodb "products.csv" 5000 w1).2 in
  (bens w2).*2 = (bens w1).*2.
Proof.
  intros w w1 w2.
  apply (importar_twice_same_documents w "products.csv" 5000
           [linha "10" "x"; linha "11" "y"]); [reflexivity | reflexivity | done].
Defined.



(** X4.  Without a readable file the import does not reach the store: the
    collection and the fault schedule are as before, one line is printed
    (the missing-file message, or the reader's error) and the call returns
    normally. *)
Theorem importar_without_file
    (w : world) (path : string) (limit : Z) :
  (∀ rows, files w !! path ≠ Some (Table rows)) →
  let r := importar_csv_para_mongodb path limit w in
  r.1 = Ok PyNone ∧ only_printed w r.2 ∧
  ∃ line, stdout r.2 = stdout w ++ [line] ∧
    match files w !! path with
    | None => line = "Erro: Arquivo CSV '" +:+ path +:+
                "' não encontrado. Por favor, verifique o caminho do arquivo."
    | Some (Unreadable msg) => line = "Erro ao importar CSV para MongoDB: " +:+ msg
    | Some (Table _) => False
    end.
Proof.
  intros Hno. simpl.
  unfold importar_csv_para_mongodb, path_exists, read_csv. unfold_monad. simpl.
  destruct (files w !! path) as [[msg|rows]|] eqn:Hf; simpl.
  - rewrite ?Hf. simpl. split_and!; [done|done|]. eexists. by rewrite ?Hf.
  - by destruct (Hno rows).
  - split_and!; [done|done|]. eexists. split; [done|]. by rewrite ?Hf.
Qed.

Lemma importar_without_file_witness :
  let w := mundo [(1, bem "A1" "Sala" "Ativo" [aquisicao])]
             [Some "unreachable"] true ∅ in
  let r := importar_csv_para_mongodb "products.csv" 5000 w in
  bens r.2 = bens w ∧ faults r.2 = faults w.
Proof.
  intros w r.
  destruct (importar_without_file w "products.csv" 5000) as (_ & Ho & _).
  - intros rows. unfold w. simpl. by rewrite lookup_empty.
  - destruct Ho as (Hb & _ & Hfs & _). by split.
Defined.

(** X5.  A negative limit is passed on to [df.head]: the import then takes all
    rows but the last [|limit|]. *)
Theorem importar_negative_limit
    (w : world) (path : string) (limit : Z) (rows : list row) :
  files w !! path = Some (Table rows) → calm 2 w →
  (limit < 0)%Z → (Z.to_nat (- limit) < length rows) →
  let r := importar_csv_para_mongodb path limit w in
  (bens r.2).*2
  = doc_of_row <$> take (length rows - Z.to_nat (- limit)) rows ∧
  length (bens r.2) = length rows - Z.to_nat (- limit).
Proof.
  intros Hf Hc Hneg Hlt r.
  destruct (amostra_cases limit rows) as (_ & _ & H3).
  specialize (H3 Hneg).
  assert (Hne : amostra limit rows ≠ []).
  { rewrite H3. intros Hnil%(f_equal length).
    rewrite length_take in Hnil. simpl in Hnil. lia. }
  destruct (importar_calm w path limit rows Hf Hc Hne) as [Hb _].
  fold r in Hb. rewrite Hb, H3, stamp_snd, stamp_length, length_fmap, length_take.
  split; [done|lia].
Qed.

Lemma importar_negative_limit_witness :
  let w := mundo [] [] true
             {[ "products.csv" := Table [linha "10" "x"; linha "11" "y";
                                          linha "12" "z"] ]} in
  length (bens (importar_csv_para_mongodb "products.csv" (-1) w).2) = 2.
Proof.
  intros w.
  destruct (importar_negative_limit w "products.csv" (-1)
              [linha "10" "x"; linha "11" "y"; linha "12" "z"])
    as [_ H]; [reflexivity | reflexivity | lia | simpl; lia |].
  exact H.
Defined.

(** ** Manual insertion *)

Lemma ticks_next_oid n w : next_oid (ticks n w) = next_oid w.
Proof. induction n as [|n IH]; [done|]. exact IH. Qed.

Lemma ticks_calm k n w : calm (k + n) w → calm n (ticks k w).
Proof.
  revert w. induction k as [|k IH]; intros w Hc; [done|].
  rewrite ticks_S. apply IH. by apply calm_S in Hc as [? _].
Qed.

(** A successful insertion, in full. *)
Lemma inserir_documento_extra_calm w n :
  (1 ≤ n)%Z → calm (Z.to_nat n + 1) w →
  let batch := stamp (next_oid w)
                 (novo_bem (length (bens w)) <$> seq 0 (Z.to_nat n)) in
  let r := inserir_documento_extra n w in
  r.1 = Ok batch.*1 ∧ bens r.2 = bens w ++ batch.
Proof.
  intros Hn Hc batch r. unfold r, inserir_documento_extra. unfold_monad.
  rewrite novos_bens_calm by (rewrite length_seq; eapply calm_le; [|done]; lia).
  rewrite length_seq. simpl.
  rewrite (insert_many_calm 0).
  - simpl. rewrite ticks_next_oid, ticks_bens. done.
  - intros Hnil%fmap_nil_inv%(f_equal length). rewrite length_seq in Hnil.
    simpl in Hnil. lia.
  - by apply ticks_calm.
Qed.

(** X6.  Asked for no document (or a negative number of them), the insertion
    builds an empty batch, which the driver refuses before contacting the
    server: nothing is inserted, no round trip is made, the refusal is
    printed and the result is the empty list. *)
Theorem inserir_documento_extra_nothing (w : world) (n : Z) :
  (n ≤ 0)%Z →
  let r := inserir_documento_extra n w in
  r.1 = Ok [] ∧ only_printed w r.2 ∧
  stdout r.2
  = stdout w ++ ["Erro ao inserir documentos extras: " +:+
                 "documents must be a non-empty list"].
Proof.
  intros Hn. simpl. unfold inserir_documento_extra.
  assert (Z.to_nat n = 0) as -> by lia. by unfold_monad.
Qed.

Lemma inserir_documento_extra_nothing_witness :
  let w := mundo [(1, bem "A1" "Sala" "Ativo" [aquisicao])]
             [Some "unreachable"] true ∅ in
  let r := inserir_documento_extra 0 w in
  r.1 = Ok [] ∧ bens r.2 = bens w ∧ faults r.2 = faults w.
Proof.
  intros w r. destruct (inserir_documento_extra_nothing w 0) as (Hr & Ho & _); [lia|].
  destruct Ho as (Hb & _ & Hfs & _). by split_and!.
Defined.

(** The identifiers after a successful insertion. *)
Lemma ids_after_insert w n :
  (1 ≤ n)%Z → calm (Z.to_nat n + 1) w →
  asset_ids (bens (inserir_documento_extra n w).2)
  = asset_ids (bens w) ++
    ((λ i, "NEWASSET" +:+ pretty (length (bens w) + 1 + i)) <$> seq 0 (Z.to_nat n)).
Proof.
  intros Hn Hc. destruct (inserir_documento_extra_calm w n Hn Hc) as [_ Hb].
  rewrite Hb. unfold asset_ids. rewrite fmap_app. f_equal.
  transitivity (asset_id <$> (stamp (next_oid w)
                  (novo_bem (length (bens w)) <$> seq 0 (Z.to_nat n))).*2).
  - by rewrite <-list_fmap_compose.
  - by rewrite stamp_snd, <-list_fmap_compose.
Qed.

(** X7.  The generated identifiers are only distinct among themselves.  After a
    successful insertion the identifiers of the collection are pairwise
    distinct exactly when they were before and none of the new names
    "NEWASSET(m+1)" ... "NEWASSET(m+n)" was already taken; the function does
    not check, so after deletions (which lower the count [m]) a later
    insertion can reuse an identifier that is still in use. *)
Theorem inserir_documento_extra_unique_ids (w : world) (n : Z) :
  (1 ≤ n)%Z → calm (Z.to_nat n + 1) w →
  let m := length (bens w) in
  let r := inserir_documento_extra n w in
  NoDup (asset_ids (bens r.2)) ↔
  NoDup (asset_ids (bens w)) ∧
  ∀ i, i < Z.to_nat n →
       "NEWASSET" +:+ pretty (m + 1 + i) ∉ asset_ids (bens w).
Proof.
  intros Hn Hc m r. unfold r. rewrite (ids_after_insert w n Hn Hc).
  fold m. rewrite NoDup_app.
  assert (Hnew : NoDup ((λ i, "NEWASSET" +:+ pretty (m + 1 + i)) <$> seq 0 (Z.to_nat n))).
  { apply (@NoDup_fmap_2 _ _ _ (novo_bem_id_inj m)), NoDup_seq. }
  split.
  - intros (Hold & Hdisj & _). split; [done|]. intros i Hi Hin.
    apply (Hdisj _ Hin). apply list_elem_of_fmap. exists i. split; [done|].
    apply elem_of_seq. lia.
  - intros [Hold Hfree]. split_and!; [done| |done].
    intros x Hx (i & -> & Hi%elem_of_seq)%list_elem_of_fmap.
    apply (Hfree i); [lia|done].
Qed.

Lemma inserir_documento_extra_unique_ids_witness :
  let w := mundo [(1, bem "NEWASSET3" "Laboratório 101" "Ativo" [aquisicao]);
                  (2, bem "A2" "Sala" "Ativo" [aquisicao])] [] true ∅ in
  ¬ NoDup (asset_ids (bens (inserir_documento_extra 2 w).2)).
Proof.
  intros w Hnd.
  apply (inserir_documento_extra_unique_ids w 2) in Hnd as [_ Hfree];
    [|lia|reflexivity].
  apply (Hfree 0); [simpl; lia|]. vm_compute. constructor.
Defined.

(** X8.  A successful insertion appends [num_docs] documents after the existing
    ones and returns their [_id]s in order; each new document sits in
    "Laboratório 101" with status "Ativo", is named "Item Teste" with its
    1-based position in the batch, and has the acquisition entry as its
    whole history. *)
Theorem inserir_documento_extra_appends (w : world) (n : Z) :
  (1 ≤ n)%Z → calm (Z.to_nat n + 1) w →
  let r := inserir_documento_extra n w in
  ∃ batch : list stored,
    bens r.2 = bens w ++ batch ∧
    r.1 = Ok batch.*1 ∧
    length batch = Z.to_nat n ∧
    Forall (λ d, next_oid w ≤ d.1) batch ∧
    (λ d, asset_name d.2) <$> batch
      = (λ i, "Item Teste " +:+ pretty (i + 1)) <$> seq 0 (Z.to_nat n) ∧
    Forall (λ d, location d.2 = Some "Laboratório 101" ∧
                 status d.2 = Some "Ativo" ∧
                 ∃ e, movement_history d.2 = [e] ∧ type e = "Aquisição" ∧
                      to_location e = Some "Laboratório 101") batch.
Proof.
  intros Hn Hc r. destruct (inserir_documento_extra_calm w n Hn Hc) as [Hr Hb].
  eexists. split_and!; [exact Hb | exact Hr | | | |].
  - by rewrite stamp_length, length_fmap, length_seq.
  - apply Forall_forall. intros d Hd. by apply stamp_elem_of in Hd as [? _].
  - transitivity (asset_name <$> (stamp (next_oid w)
                    (novo_bem (length (bens w)) <$> seq 0 (Z.to_nat n))).*2).
    + by rewrite <-list_fmap_compose.
    + by rewrite stamp_snd, <-list_fmap_compose.
  - apply Forall_forall. intros d [_ Hd]%stamp_elem_of.
    apply list_elem_of_fmap in Hd as (i & -> & _). simpl.
    split_and!; [done|done|]. eexists. split_and!; done.
Qed.

Lemma inserir_documento_extra_appends_witness :
  let w := mundo [(1, bem "A1" "Sala" "Ativo" [aquisicao])] [] true ∅ in
  let r := inserir_documento_extra 5 w in
  ∃ batch : list stored,
    bens r.2 = bens w ++ batch ∧ r.1 = Ok batch.*1 ∧ length batch = 5.
Proof.
  intros w r.
  destruct (inserir_documento_extra_appends w 5) as (batch & Hb & Hr & Hl & _);
    [lia | reflexivity |].
  exists batch. by split_and!.
Defined.

(** ** Deletion *)

Lemma remove_first_found k ds i d :
  first_with_id k ds = Some (i, d) → remove_first k ds = (delete i ds, 1).
Proof.
  unfold first_with_id. revert i.
  induction ds as [|x ds IH]; intros i Hfind; [done|].
  simpl in *. destruct (has_asset_id k x) eqn:Hx.
  - rewrite decide_True in Hfind by done. by simplify_eq.
  - rewrite decide_False in Hfind by done.
    destruct (list_find _ ds) as [[j y]|] eqn:Hds; simplify_eq/=.
    by rewrite (IH j).
Qed.

Lemma remove_first_absent k ds :
  first_with_id k ds = None → remove_first k ds = (ds, 0).
Proof.
  unfold first_with_id.
  induction ds as [|x ds IH]; intros Hfind; [done|].
  simpl in *. destruct (has_asset_id k x) eqn:Hx.
  - by rewrite decide_True in Hfind.
  - rewrite decide_False in Hfind by done.
    destruct (list_find _ ds) as [[j y]|] eqn:Hds; simplify_eq/=.
    by rewrite IH.
Qed.

(** X9.  Deleting an identifier that no document carries leaves the collection
    as it is, whatever the store does; when the store answers, the call
    reports that nothing was found. *)
Theorem excluir_documento_absent (w : world) (aid : string) :
  (∀ d, d ∈ bens w → asset_id d.2 ≠ aid) →
  let r := excluir_documento aid w in
  r.1 = Ok () ∧ bens r.2 = bens w ∧
  (calm 1 w →
   stdout r.2 = stdout w ++ [nl +:+ "Documento com asset_id '" +:+ aid +:+
                             "' não encontrado para exclusão."]).
Proof.
  intros Habs%first_with_id_None. simpl. split_and!.
  - unfold excluir_documento.
    edestruct (try_except_returns (A:=())) as [[] ->]; [|done].
    intros e w'. by eexists.
  - apply excluir_documento_post; [done|]. by rewrite remove_first_absent.
  - intros Hc. unfold excluir_documento, delete_one. unfold_monad.
    rewrite (store_call_calm 0) by done. simpl.
    by rewrite remove_first_absent.
Qed.

Lemma excluir_documento_absent_witness :
  let w := mundo [(1, bem "A1" "Sala" "Ativo" [aquisicao])] [] true ∅ in
  bens (excluir_documento "ZZ" w).2 = bens w.
Proof.
  intros w. destruct (excluir_documento_absent w "ZZ") as (_ & H & _); [|exact H].
  intros d Hd. apply list_elem_of_singleton in Hd. by subst d.
Defined.

(** X10.  Deleting an identifier that is present removes exactly one document,
    the first one carrying it: every other document, a later one with the
    same identifier included, keeps its place in the order. *)
Theorem excluir_documento_removes_first
    (w : world) (aid : string) (i : nat) (d : stored) :
  calm 1 w → first_with_id aid (bens w) = Some (i, d) →
  let r := excluir_documento aid w in
  r.1 = Ok () ∧
  bens r.2 = delete i (bens w) ∧
  S (length (bens r.2)) = length (bens w) ∧
  stdout r.2 = stdout w ++ [nl +:+ "Documento com asset_id '" +:+ aid +:+
                            "' excluído com sucesso."].
Proof.
  intros Hc Hf. simpl. unfold excluir_documento, delete_one. unfold_monad.
  rewrite (store_call_calm 0) by done. simpl.
  rewrite (remove_first_found _ _ i d) by done. simpl.
  split_and!; [done|done| |done].
  rewrite length_delete; [|by apply first_with_id_lookup in Hf as [-> _]].
  apply first_with_id_lookup in Hf as [Hi%lookup_lt_Some _]. lia.
Qed.

Lemma excluir_documento_removes_first_witness :
  let w := mundo [(1, bem "A1" "Sala" "Ativo" [aquisicao]);
                  (2, bem "A2" "Lab" "Ativo" [aquisicao]);
                  (3, bem "A2" "Sala" "Ativo" [aquisicao])] [] true ∅ in
  bens (excluir_documento "A2" w).2
  = [(1, bem "A1" "Sala" "Ativo" [aquisicao]);
     (3, bem "A2" "Sala" "Ativo" [aquisicao])].
Proof.
  intros w.
  destruct (excluir_documento_removes_first w "A2" 1
              (2, bem "A2" "Lab" "Ativo" [aquisicao]))
    as (_ & H & _); [reflexivity | reflexivity | exact H].
Defined.

(** ** Editing: frame, location changes, and reading the history back *)

(** X11.  Whatever its arguments and whatever the store does, an edit neither
    adds, removes nor reorders documents, and leaves every document's [_id],
    identifier, descriptive fields and acquisition date alone; histories
    only grow at the end. *)
Theorem editar_documento_frame
    (w : world) (aid : string) (new_location new_status : option string) :
  Forall2 same_identity (bens w)
    (bens (editar_documento aid new_location new_status w).2).
Proof.
  assert (Hrefl : Forall2 same_identity (bens w) (bens w)).
  { apply Forall_Forall2_diag, Forall_forall. intros d _.
    unfold same_identity. by split_and!. }
  apply editar_documento_post; [done|].
  intros i d fields e [Hi _]%first_with_id_lookup.
  rewrite <-(list_insert_id (bens w) i d Hi) at 1.
  apply Forall2_insert; [done|].
  unfold same_identity. simpl. split_and!; try done. by apply prefix_app_r.
Qed.

Lemma first_with_id_insert k ds i d x :
  first_with_id k ds = Some (i, d) → asset_id x.2 = k →
  first_with_id k (<[i:=x]> ds) = Some (i, x).
Proof.
  unfold first_with_id. intros (Hi & HP & Hlt)%list_find_Some Hx.
  apply list_find_Some. split_and!.
  - apply list_lookup_insert_eq. by eapply lookup_lt_Some.
  - unfold has_asset_id. by apply bool_decide_eq_true.
  - intros j y Hj Hji. rewrite list_lookup_insert_ne in Hj by lia. eauto.
Qed.

(** A change of location alone, with the world it leaves behind. *)
Lemma editar_documento_location_calm w aid loc ns i d :
  loc ≠ "" → truthy ns = false → calm 2 w →
  first_with_id aid (bens w) = Some (i, d) →
  let r := editar_documento aid (Some loc) ns w in
  let e := movimentacao (clock w)
             (default "Desconhecida" (location d.2)) loc in
  r.1 = Ok () ∧
  bens r.2 = <[i := (d.1, edited d.2 (Some loc) (status d.2) e)]> (bens w) ∧
  faults r.2 = tail (tail (faults w)) ∧ clock r.2 = clock w ∧
  stdout r.2
  = stdout w ++
    ["Atualizando localização do bem '" +:+ aid +:+ "' de '" +:+
     default "Desconhecida" (location d.2) +:+ "' para '" +:+ loc +:+ "'.";
     "Bem '" +:+ aid +:+
     "' editado com sucesso e histórico de movimentação atualizado."].
Proof.
  intros Hloc Hns Hc Hfind r e. unfold r, editar_documento.
  rewrite (given_truthy ns), given_Some by done.
  unfold_monad. simpl.
  rewrite (find_one_calm 1) by done. simpl.
  apply calm_S in Hc as [Hc _].
  rewrite (update_one_calm 0); [|done|].
  2:{ right. intros Hempty. apply (f_equal (.!! "location")) in Hempty.
      by rewrite lookup_insert_eq in Hempty. }
  simpl. rewrite (update_first_found _ _ _ i d) by done. simpl.
  rewrite Hfind. simpl. split_and!; try done.
  by rewrite <-(assoc_L (++)).
Qed.

(** X12.  [editar_documento] with a new location and no new status, on an asset
    that exists, with the store answering: the location is set, the status
    is kept, every other document stays as it was, and exactly one entry of
    type "Movimentação" is appended, running from the prior location to the
    new one. *)
Theorem editar_documento_location_only
    (w : world) (aid loc : string) (new_status : option string)
    (i : nat) (d : stored) :
  loc ≠ "" → truthy new_status = false → calm 2 w →
  first_with_id aid (bens w) = Some (i, d) →
  let r := editar_documento aid (Some loc) new_status w in
  let e := movimentacao (clock w)
             (default "Desconhecida" (location d.2)) loc in
  r.1 = Ok () ∧
  bens r.2 = <[i := (d.1, edited d.2 (Some loc) (status d.2) e)]> (bens w).
Proof.
  intros Hloc Hns Hc Hfind.
  destruct (editar_documento_location_calm w aid loc new_status i d)
    as (H1 & H2 & _); done.
Qed.

Lemma editar_documento_location_only_witness :
  bens (editar_documento "A1" (Some "Reitoria") None
          (mundo [(7, bem "A0" "Sala 1" "Ativo" [aquisicao]);
                  (8, bem "A1" "Sala 2" "Em Uso" [aquisicao])] [] true ∅)).2
  = [(7, bem "A0" "Sala 1" "Ativo" [aquisicao]);
     (8, bem "A1" "Reitoria" "Em Uso"
           [aquisicao; movimentacao "2024-06-01 12:00:00" "Sala 2" "Reitoria"])].
Proof.
  apply (editar_documento_location_only
           (mundo [(7, bem "A0" "Sala 1" "Ativo" [aquisicao]);
                   (8, bem "A1" "Sala 2" "Em Uso" [aquisicao])] [] true ∅)
           "A1" "Reitoria" None 1 (8, bem "A1" "Sala 2" "Em Uso" [aquisicao]));
    [done | reflexivity | reflexivity | reflexivity].
Defined.

(** X13.  Two moves in a row chain up: both entries are appended in order after
    the old history, the second one starts where the first one ended, and
    the asset ends at the second destination with its status untouched. *)
Theorem editar_documento_moves_chain
    (w : world) (aid l1 l2 : string) (i : nat) (d : stored) :
  l1 ≠ "" → l2 ≠ "" → quiet w →
  first_with_id aid (bens w) = Some (i, d) →
  let w1 := (editar_documento aid (Some l1) None w).2 in
  let w2 := (editar_documento aid (Some l2) None w1).2 in
  ∃ a2 e1 e2,
    bens w2 = <[i := (d.1, a2)]> (bens w) ∧
    location a2 = Some l2 ∧ status a2 = status d.2 ∧
    movement_history a2 = movement_history d.2 ++ [e1; e2] ∧
    type e1 = "Movimentação" ∧ type e2 = "Movimentação" ∧
    from_location e1 = Some (default "Desconhecida" (location d.2)) ∧
    to_location e1 = Some l1 ∧
    from_location e2 = Some l1 ∧ to_location e2 = Some l2.
Proof.
  intros Hl1 Hl2 Hq Hf w1 w2.
  destruct (editar_documento_location_calm w aid l1 None i d)
    as (_ & Hb1 & Hq1 & _); [done|done|by apply quiet_calm|done|].
  fold w1 in Hb1, Hq1. unfold quiet in Hq. rewrite Hq in Hq1.
  set (e1 := movimentacao (clock w) (default "Desconhecida" (location d.2)) l1) in *.
  set (d1 := (d.1, edited d.2 (Some l1) (status d.2) e1)) in *.
  assert (Hf1 : first_with_id aid (bens w1) = Some (i, d1)).
  { rewrite Hb1. apply (first_with_id_insert aid (bens w) i d); [done|].
    by apply first_with_id_lookup in Hf as [_ ?]. }
  destruct (editar_documento_location_calm w1 aid l2 None i d1)
    as (_ & Hb2 & _); [done|done|by apply quiet_calm|done|].
  fold w2 in Hb2.
  eexists _, e1, (movimentacao (clock w1) l1 l2). split_and!.
  - rewrite Hb2, Hb1, list_insert_insert_eq. done.
  - done.
  - done.
  - simpl. by rewrite <-(assoc_L (++)).
  - done.
  - done.
  - done.
  - done.
  - done.
  - done.
Qed.

Lemma editar_documento_moves_chain_witness :
  let w := mundo [(8, bem "A1" "Sala 2" "Em Uso" [aquisicao])] [] true ∅ in
  let w1 := (editar_documento "A1" (Some "Reitoria") None w).2 in
  let w2 := (editar_documento "A1" (Some "Lab") None w1).2 in
  ∃ a2 e1 e2, bens w2 = [(8, a2)] ∧ location a2 = Some "Lab" ∧
        movement_history a2 = [aquisicao; e1; e2] ∧
        to_location e1 = Some "Reitoria" ∧ from_location e2 = Some "Reitoria".
Proof.
  intros w w1 w2.
  destruct (editar_documento_moves_chain w "A1" "Reitoria" "Lab" 0
              (8, bem "A1" "Sala 2" "Em Uso" [aquisicao]))
    as (a2 & e1 & e2 & Hb & Hl & _ & Hh & _ & _ & _ & Ht1 & Hf2 & _);
    [done | done | reflexivity | reflexivity |].
  exists a2, e1, e2. split_and!; [exact Hb | exact Hl | exact Hh | exact Ht1 | exact Hf2].
Defined.

(** ** Reading a history *)

Lemma print_history_spec h w0 :
  (print_history h w0).1 = Ok () ∧ only_printed w0 (print_history h w0).2.
Proof.
  revert w0. induction h as [|e h IH]; intros w0; simpl; [done|].
  unfold_monad. simpl.
  match goal with |- context [print_history h ?w1] =>
    destruct (IH w1) as [H1 H2] end.
  split; [done|]. unfold only_printed in *. simpl in *. done.
Qed.

Lemma buscar_historico_de_movimentacao_calm w aid :
  calm 1 w →
  let r := buscar_historico_de_movimentacao aid w in
  r.1 = Ok (from_option (λ f, movement_history f.2.2) []
              (first_with_id aid (bens w))) ∧
  bens r.2 = bens w.
Proof.
  intros Hc. simpl. unfold buscar_historico_de_movimentacao.
  rewrite bind_print. unfold_monad.
  rewrite (find_one_calm 0) by done. simpl.
  destruct (first_with_id aid (bens w)) as [[i d]|]; simpl; [|done].
  match goal with |- context [print_history ?h ?w1] =>
    destruct (print_history_spec h w1) as [H1 (H2 & _)];
    destruct (print_history h w1) as [[u|e] w2]
  end; simpl in *; done.
Qed.

(** X14.  With the store answering, the history query returns the history of the
    first document carrying the identifier, and the empty list when there is
    none; it never changes the collection. *)
Theorem buscar_historico_de_movimentacao_returns (w : world) (aid : string) :
  calm 1 w →
  let r := buscar_historico_de_movimentacao aid w in
  bens r.2 = bens w ∧
  (∀ i d, first_with_id aid (bens w) = Some (i, d) →
          r.1 = Ok (movement_history d.2)) ∧
  ((∀ d, d ∈ bens w → asset_id d.2 ≠ aid) → r.1 = Ok []).
Proof.
  intros Hc r. destruct (buscar_historico_de_movimentacao_calm w aid Hc) as [Hr Hb].
  fold r in Hr, Hb. split_and!; [done| |].
  - intros i d Hf. by rewrite Hr, Hf.
  - intros Habs%first_with_id_None. by rewrite Hr, Habs.
Qed.

Lemma buscar_historico_de_movimentacao_returns_witness :
  let w := mundo [(7, bem "A0" "Sala 1" "Ativo" []);
                  (8, bem "A1" "Sala 2" "Em Uso" [aquisicao])] [] true ∅ in
  (buscar_historico_de_movimentacao "A1" w).1 = Ok [aquisicao].
Proof.
  intros w.
  destruct (buscar_historico_de_movimentacao_returns w "A1") as (_ & H & _);
    [reflexivity|].
  apply (H 1 (8, bem "A1" "Sala 2" "Em Uso" [aquisicao])). reflexivity.
Defined.

(** X15.  Reading back after an edit: the history query returns the old history
    followed by the entry the edit wrote. *)
Theorem editar_then_buscar_historico
    (w : world) (aid loc : string) (i : nat) (d : stored) :
  loc ≠ "" → quiet w →
  first_with_id aid (bens w) = Some (i, d) →
  let w1 := (editar_documento aid (Some loc) None w).2 in
  (buscar_historico_de_movimentacao aid w1).1
  = Ok (movement_history d.2 ++
        [movimentacao (clock w) (default "Desconhecida" (location d.2)) loc]).
Proof.
  intros Hloc Hq Hf w1.
  destruct (editar_documento_location_calm w aid loc None i d)
    as (_ & Hb1 & Hq1 & _); [done|done|by apply quiet_calm|done|].
  fold w1 in Hb1, Hq1. unfold quiet in Hq. rewrite Hq in Hq1.
  destruct (buscar_historico_de_movimentacao_calm w1 aid) as [Hr _];
    [by apply quiet_calm|].
  rewrite Hr, Hb1.
  rewrite (first_with_id_insert aid (bens w) i d); [done|done|].
  by apply first_with_id_lookup in Hf as [_ ?].
Qed.

Lemma editar_then_buscar_historico_witness :
  let w := mundo [(8, bem "A1" "Sala 2" "Em Uso" [aquisicao])] [] true ∅ in
  let w1 := (editar_documento "A1" (Some "Reitoria") None w).2 in
  (buscar_historico_de_movimentacao "A1" w1).1
  = Ok [aquisicao; movimentacao "2024-06-01 12:00:00" "Sala 2" "Reitoria"].
Proof.
  intros w w1.
  apply (editar_then_buscar_historico w "A1" "Reitoria" 0
           (8, bem "A1" "Sala 2" "Em Uso" [aquisicao]));
    [done | reflexivity | reflexivity].
Defined.

(** ** Queries by location, status and category *)

Lemma print_assets_ok l w0 :
  Forall (λ d, is_Some (status d.2)) l →
  (print_assets l w0).1 = Ok () ∧ only_printed w0 (print_assets l w0).2.
Proof.
  intros Hl. revert w0. induction Hl as [|d l [s Hs] _ IH]; intros w0; simpl;
    [done|].
  unfold_monad. unfold subscript_status. rewrite Hs. simpl.
  match goal with |- context [print_assets l ?w1] =>
    destruct (IH w1) as [H1 H2] end.
  split; [done|]. unfold only_printed in *. simpl in *. done.
Qed.

Lemma print_assets_keyerror l w0 :
  Exists (λ d, status d.2 = None) l →
  (print_assets l w0).1 = Raised "'status'" ∧
  bens (print_assets l w0).2 = bens w0.
Proof.
  intros Hl. split; [|apply print_assets_bens].
  revert w0. induction l as [|d l IH]; intros w0; [by inversion Hl|].
  simpl. unfold_monad. unfold subscript_status.
  destruct (status d.2) as [s|] eqn:Hs; simpl; [|done].
  apply IH. by inversion Hl; simplify_eq.
Qed.

(** X16.  With the store answering, the location query returns exactly the
    documents at that location, in the order of the collection, provided
    each of them has a status to print; the collection is not changed. *)
Theorem buscar_bens_por_localizacao_returns (w : world) (loc : string) :
  calm 1 w →
  let found := filter (λ d, location d.2 = Some loc) (bens w) in
  Forall (λ d, is_Some (status d.2)) found →
  let r := buscar_bens_por_localizacao loc w in
  r.1 = Ok found ∧ bens r.2 = bens w ∧
  ∀ d, d ∈ found ↔ d ∈ bens w ∧ location d.2 = Some loc.
Proof.
  intros Hc found Hst r. split_and!.
  - unfold r, buscar_bens_por_localizacao. rewrite bind_print.
    unfold find_by_location. unfold_monad.
    rewrite (store_call_calm 0) by done. simpl. fold found.
    destruct found as [|x rest] eqn:Hfound; [done|].
    match goal with |- context [print_assets ?l ?w1] =>
      destruct (print_assets_ok l w1 Hst) as [H1 _];
      destruct (print_assets l w1) as [[u|e] w2]
    end; simpl in *; done.
  - apply buscar_bens_por_localizacao_bens.
  - intros d. unfold found. rewrite list_elem_of_filter. tauto.
Qed.

Lemma buscar_bens_por_localizacao_returns_witness :
  let w := mundo [(1, bem "A1" "Sala" "Ativo" [aquisicao]);
                  (2, bem "A2" "Lab" "Ativo" [aquisicao]);
                  (3, bem "A3" "Sala" "Em Uso" [aquisicao])] [] true ∅ in
  (buscar_bens_por_localizacao "Sala" w).1
  = Ok [(1, bem "A1" "Sala" "Ativo" [aquisicao]);
        (3, bem "A3" "Sala" "Em Uso" [aquisicao])].
Proof.
  intros w.
  destruct (buscar_bens_por_localizacao_returns w "Sala") as (H & _);
    [reflexivity | | exact H].
  repeat constructor; by eexists.
Defined.

(** X17.  A single document at the location without a [status] key makes the
    whole query come back empty: printing it raises [KeyError], which the
    [try] turns into an error line and the empty list, although matching
    documents exist. *)
Theorem buscar_bens_por_localizacao_missing_status (w : world) (loc : string) :
  calm 1 w →
  Exists (λ d, location d.2 = Some loc ∧ status d.2 = None) (bens w) →
  let r := buscar_bens_por_localizacao loc w in
  r.1 = Ok [] ∧ bens r.2 = bens w ∧
  last (stdout r.2)
  = Some ("Erro ao buscar bens por localização: " +:+ "'status'").
Proof.
  intros Hc Hex r.
  assert (Hfound : Exists (λ d, status d.2 = None)
                     (filter (λ d, location d.2 = Some loc) (bens w))).
  { apply Exists_exists in Hex as (d & Hd & Hl & Hs).
    apply Exists_exists. exists d. split; [|done].
    apply list_elem_of_filter. done. }
  split_and!; [| apply buscar_bens_por_localizacao_bens |];
    unfold r, buscar_bens_por_localizacao; rewrite bind_print;
    unfold find_by_location; unfold_monad;
    rewrite (store_call_calm 0) by done; simpl;
    (destruct (filter _ (bens w)) as [|x rest] eqn:Hfil; [by inversion Hfound|]);
    match goal with |- context [print_assets ?l ?w1] =>
      destruct (print_assets_keyerror l w1 Hfound) as [H1 _];
      destruct (print_assets l w1) as [[u|e] w2]
    end; simpl in *; simplify_eq; [done|].
  by rewrite last_snoc.
Qed.

Lemma buscar_bens_por_localizacao_missing_status_witness :
  let sem_status :=
    {| asset_id := "A2"; asset_name := "n"; category := "c"; brand := "b";
       description := "d"; location := Some "Sala"; status := None;
       acquisition_date := "2023-01-01"; movement_history := [aquisicao] |} in
  let w := mundo [(1, bem "A1" "Sala" "Ativo" [aquisicao]); (2, sem_status)]
             [] true ∅ in
  (buscar_bens_por_localizacao "Sala" w).1 = Ok [].
Proof.
  intros sem_status w.
  destruct (buscar_bens_por_localizacao_missing_status w "Sala") as (H & _);
    [reflexivity | | exact H].
  apply Exists_cons_tl, Exists_cons_hd. done.
Defined.

Lemma print_assets_full_ok l w0 :
  Forall (λ d, is_Some (location d.2) ∧ is_Some (status d.2)) l →
  (print_assets_full l w0).1 = Ok () ∧
  only_printed w0 (print_assets_full l w0).2.
Proof.
  intros Hl. revert w0.
  induction Hl as [|d l [[lo Hlo] [s Hs]] _ IH]; intros w0; simpl; [done|].
  unfold_monad. unfold subscript_location, subscript_status.
  rewrite Hlo, Hs. simpl.
  match goal with |- context [print_assets_full l ?w1] =>
    destruct (IH w1) as [H1 H2] end.
  split; [done|]. unfold only_printed in *. simpl in *. done.
Qed.

Lemma find_filtro_calm q w :
  calm 1 w →
  Forall (λ d, is_Some (location d.2) ∧ is_Some (status d.2))
    (filter (λ d, satisfaz q d = true) (bens w)) →
  try_except
    (assets ← find_filtro q;
     match assets with
     | _ :: _ => print_assets_full assets;; mret assets
     | [] =>
         print "Nenhum bem encontrado com os critérios especificados.";;
         mret []
     end)
    (λ e, print ("Erro ao buscar bens por status ou categoria: " +:+ e);;
          mret []) w
  = (Ok (filter (λ d, satisfaz q d = true) (bens w)),
     (try_except
        (assets ← find_filtro q;
         match assets with
         | _ :: _ => print_assets_full assets;; mret assets
         | [] =>
             print "Nenhum bem encontrado com os critérios especificados.";;
             mret []
         end)
        (λ e, print ("Erro ao buscar bens por status ou categoria: " +:+ e);;
              mret []) w).2).
Proof.
  intros Hc Hok. unfold find_filtro. unfold_monad.
  rewrite (store_call_calm 0) by done. simpl.
  destruct (filter _ (bens w)) as [|x rest]; [done|].
  match goal with |- context [print_assets_full ?l ?w1] =>
    destruct (print_assets_full_ok l w1 Hok) as [H1 _];
    destruct (print_assets_full l w1) as [[u|e] w2]
  end; simpl in *; done.
Qed.

(** X18.  With the store answering and every document carrying a location
    and a status (so that every match can be printed), the status /
    category query returns the documents that have the status or the
    category when both are given (a match on either one suffices), and the
    documents that have the one given otherwise, in the order of the
    collection. *)
Theorem buscar_bens_com_status_ou_categoria_returns
    (w : world) (st cat : option string) :
  calm 1 w →
  Forall (λ d, is_Some (location d.2) ∧ is_Some (status d.2)) (bens w) →
  let r := buscar_bens_com_status_ou_categoria st cat w in
  (∀ s c, given st = Some s → given cat = Some c →
     r.1 = Ok (filter (λ d, status d.2 = Some s ∨ category d.2 = c) (bens w))) ∧
  (∀ s, given st = Some s → given cat = None →
     r.1 = Ok (filter (λ d, status d.2 = Some s) (bens w))) ∧
  (∀ c, given st = None → given cat = Some c →
     r.1 = Ok (filter (λ d, category d.2 = c) (bens w))).
Proof.
  intros Hc Hall r.
  assert (Hsub : ∀ q, Forall (λ d, is_Some (location d.2) ∧ is_Some (status d.2))
                        (filter (λ d, satisfaz q d = true) (bens w))).
  { intros q. apply Forall_forall. intros d [_ Hd]%list_elem_of_filter.
    by apply (proj1 (Forall_forall _ _) Hall). }
  split_and!.
  - intros s c Hs Hcat. unfold r, buscar_bens_com_status_ou_categoria.
    rewrite Hs, Hcat, bind_print, find_filtro_calm by (done || apply Hsub).
    simpl. f_equal. apply list_filter_iff. intros d. simpl.
    rewrite orb_true_iff, !bool_decide_eq_true. done.
  - intros s Hs Hcat. unfold r, buscar_bens_com_status_ou_categoria.
    rewrite Hs, Hcat, bind_print, find_filtro_calm by (done || apply Hsub).
    simpl. f_equal. apply list_filter_iff. intros d. simpl.
    by rewrite bool_decide_eq_true.
  - intros c Hs Hcat. unfold r, buscar_bens_com_status_ou_categoria.
    rewrite Hs, Hcat, bind_print, find_filtro_calm by (done || apply Hsub).
    simpl. f_equal. apply list_filter_iff. intros d. simpl.
    by rewrite bool_decide_eq_true.
Qed.

Lemma buscar_bens_com_status_ou_categoria_returns_witness :
  let w := mundo [(1, bem "A1" "Sala" "Em Manutenção" [aquisicao]);
                  (2, bem "A2" "Lab" "Ativo" [aquisicao]);
                  (3, {| asset_id := "A3"; asset_name := "n";
                         category := "Eletrônico"; brand := "b";
                         description := "d"; location := Some "Lab";
                         status := Some "Ativo";
                         acquisition_date := "2023-01-01";
                         movement_history := [aquisicao] |})] [] true ∅ in
  (λ d : stored, d.1) <$>
    default [] (match (buscar_bens_com_status_ou_categoria
                         (Some "Em Manutenção") (Some "Eletrônico") w).1 with
                | Ok l => Some l | Raised _ => None end)
  = [1; 3].
Proof.
  intros w.
  destruct (buscar_bens_com_status_ou_categoria_returns w
              (Some "Em Manutenção") (Some "Eletrônico")) as (H & _).
  - reflexivity.
  - repeat constructor; by eexists.
  - rewrite (H "Em Manutenção" "Eletrônico"); reflexivity.
Defined.

(** X19.  Called with neither a status nor a category (or with empty strings),
    the query does not contact the store at all: it prints the hint and
    returns the empty list, leaving collection and fault schedule alone. *)
Theorem buscar_bens_com_status_ou_categoria_no_criteria
    (w : world) (st cat : option string) :
  truthy st = false → truthy cat = false →
  let r := buscar_bens_com_status_ou_categoria st cat w in
  r.1 = Ok [] ∧ only_printed w r.2 ∧
  stdout r.2 = stdout w ++ ["Forneça um status ou uma categoria para a busca."].
Proof.
  intros Hs Hcat. simpl. unfold buscar_bens_com_status_ou_categoria.
  rewrite (given_truthy st), (given_truthy cat) by done. by unfold_monad.
Qed.

Lemma buscar_bens_com_status_ou_categoria_no_criteria_witness :
  let w := mundo [(1, bem "A1" "Sala" "Ativo" [aquisicao])]
             [Some "unreachable"] true ∅ in
  let r := buscar_bens_com_status_ou_categoria (Some "") None w in
  r.1 = Ok [] ∧ faults r.2 = faults w.
Proof.
  intros w r.
  destruct (buscar_bens_com_status_ou_categoria_no_criteria w (Some "") None)
    as (H & Ho & _); [reflexivity | reflexivity |].
  destruct Ho as (_ & _ & Hfs & _). by split.
Defined.

(** ** Listing everything *)

Lemma print_docs_spec repr l w0 :
  (print_docs repr l w0).1 = Ok () ∧ only_printed w0 (print_docs repr l w0).2.
Proof.
  revert w0. induction l as [|d l IH]; intros w0; simpl; [done|].
  unfold_monad. simpl.
  match goal with |- context [print_docs repr l ?w1] =>
    destruct (IH w1) as [H1 H2] end.
  split; [done|]. unfold only_printed in *. simpl in *. done.
Qed.

(** X20.  The full listing returns the whole collection in its natural order
    when the store answers.  When the store fails it returns the empty list
    after printing the error, so its caller cannot tell a failure from an
    empty collection by the result.  Either way the collection is left as
    it was. *)
Theorem buscar_todos_documentos_returns (repr : stored → string) (w : world) :
  let r := buscar_todos_documentos repr w in
  bens r.2 = bens w ∧
  (calm 1 w → r.1 = Ok (bens w)) ∧
  (∀ msg fs, faults w = Some msg :: fs →
     r.1 = Ok [] ∧
     last (stdout r.2) = Some ("Erro ao buscar todos os documentos: " +:+ msg)).
Proof.
  simpl. unfold buscar_todos_documentos. rewrite bind_print.
  unfold find_all. unfold_monad. split_and!.
  - step_store; [|done]. destruct (bens w) as [|x rest] eqn:Hb; [done|].
    match goal with |- context [print_docs repr ?l ?w1] =>
      destruct (print_docs_spec repr l w1) as [_ (H2 & _)];
      destruct (print_docs repr l w1) as [[u|e] w2]
    end; simpl in *; by rewrite ?H2.
  - intros Hc. rewrite (store_call_calm 0) by done. simpl.
    destruct (bens w) as [|x rest] eqn:Hb; [done|].
    match goal with |- context [print_docs repr ?l ?w1] =>
      destruct (print_docs_spec repr l w1) as [H1 _];
      destruct (print_docs repr l w1) as [[u|e] w2]
    end; simpl in *; done.
  - intros msg fs Hfs. rewrite (store_call_fault _ _ msg fs) by done. simpl.
    by rewrite last_snoc.
Qed.

Lemma buscar_todos_documentos_returns_witness :
  let w := mundo [(1, bem "A1" "Sala" "Ativo" [aquisicao]);
                  (2, bem "A2" "Lab" "Ativo" [aquisicao])] [] true ∅ in
  (buscar_todos_documentos (λ d, asset_id d.2) w).1 = Ok (bens w).
Proof.
  intros w.
  destruct (buscar_todos_documentos_returns (λ d, asset_id d.2) w) as (_ & H & _).
  apply H. reflexivity.
Defined.

(** X21.  None of the four remaining queries lets an exception escape, whatever
    the store does and whatever the documents look like. *)
Theorem queries_never_raise (repr : stored → string) (w : world) :
  (∀ aid, ∃ h, (buscar_historico_de_movimentacao aid w).1 = Ok h) ∧
  (∀ st cat, ∃ l, (buscar_bens_com_status_ou_categoria st cat w).1 = Ok l) ∧
  (∃ l, (buscar_todos_documentos repr w).1 = Ok l) ∧
  (∃ l, (contar_bens_por_categoria_e_status w).1 = Ok l).
Proof.
  split_and!.
  - intros aid. unfold buscar_historico_de_movimentacao. rewrite bind_print.
    apply try_except_returns. intros e w'. by eexists.
  - intros st cat. unfold buscar_bens_com_status_ou_categoria.
    destruct (given st), (given cat); rewrite bind_print;
      try (apply try_except_returns; intros e w'); by eexists.
  - unfold buscar_todos_documentos. rewrite bind_print.
    apply try_except_returns. intros e w'. by eexists.
  - unfold contar_bens_por_categoria_e_status. rewrite bind_print.
    apply try_except_returns. intros e w'. by eexists.
Qed.

(** ** Aggregations *)

Lemma bump_sum k acc :
  sum_list_with snd (bump k acc) = S (sum_list_with snd acc).
Proof.
  induction acc as [|[k0 c] acc IH]; simpl; [done|].
  case_bool_decide; simpl; [done|]. rewrite IH. lia.
Qed.

Lemma group_by_location_sum ds :
  sum_list_with snd (group_by_location ds) = length ds.
Proof.
  induction ds as [|d ds IH] using rev_ind; [done|].
  rewrite group_by_location_snoc, bump_sum, IH, length_app. simpl. lia.
Qed.

(** X23.  The counts of the location aggregation are positive and add up to the
    number of documents: every document is counted in exactly one group
    (documents without a location in the group of the null key), and the
    result is empty only for an empty collection. *)
Theorem contar_bens_por_localizacao_total (w : world) :
  calm 1 w →
  ∃ results,
    (contar_bens_por_localizacao w).1 = Ok results ∧
    sum_list_with snd results = length (bens w) ∧
    Forall (λ p, 0 < p.2) results ∧
    (results = [] ↔ bens w = []).
Proof.
  intros Hc. destruct (contar_bens_por_localizacao_calm w Hc) as [Hr _].
  eexists. split; [exact Hr|].
  pose proof (merge_sort_Permutation count_desc (group_by_location (bens w))) as Hp.
  destruct (group_by_location_spec (bens w)) as (_ & Hpos & _).
  assert (Hsum : sum_list_with snd
                   (merge_sort count_desc (group_by_location (bens w)))
                 = length (bens w)).
  { by rewrite Hp, group_by_location_sum. }
  split_and!; [done| by rewrite Hp |].
  split.
  - intros Hnil. rewrite Hnil in Hsum. simpl in Hsum.
    by apply length_zero_iff_nil.
  - intros Hnil. apply Permutation_nil_r. by rewrite Hp, Hnil.
Qed.

Lemma contar_bens_por_localizacao_total_witness :
  ∃ results,
    (contar_bens_por_localizacao
       (mundo [(1, bem "A1" "Sala" "Ativo" [aquisicao]);
               (2, bem "A2" "Lab" "Ativo" [aquisicao]);
               (3, bem "A3" "Lab" "Ativo" [aquisicao])] [] true ∅)).1
    = Ok results ∧
    sum_list_with snd results = 3.
Proof.
  destruct (contar_bens_por_localizacao_total
              (mundo [(1, bem "A1" "Sala" "Ativo" [aquisicao]);
                      (2, bem "A2" "Lab" "Ativo" [aquisicao]);
                      (3, bem "A3" "Lab" "Ativo" [aquisicao])] [] true ∅))
    as (results & Hr & Hs & _); [reflexivity|].
  exists results. split; [exact Hr | exact Hs].
Defined.

#[global] Instance category_then_count_total : Total category_then_count.
Proof.
  intros x y. unfold category_then_count.
  destruct (decide (x.1.1 = y.1.1)) as [Heq | Hne].
  - rewrite Heq. destruct (decide (y.2 ≤ x.2)).
    + left. split; [done|done].
    + right. split; [done|]. intros _. lia.
  - destruct (total String.le x.1.1 y.1.1).
    + left. by split.
    + right. split; [done|]. intros Heq. by destruct Hne.
Qed.

#[global] Instance category_then_count_trans : Transitive category_then_count.
Proof.
  intros x y z [Hxy Hcxy] [Hyz Hcyz]. split; [by etrans|].
  intros Heq. rewrite <-Heq in Hyz.
  assert (x.1.1 = y.1.1) as Hxy' by (by apply (anti_symm String.le)).
  specialize (Hcxy Hxy'). rewrite <-Hxy' in Hcyz. specialize (Hcyz Heq). lia.
Qed.

Section grouping_cs.
Implicit Types (k : cs_key) (acc : list (cs_key * nat)).

Lemma tally_bump_key k k' acc :
  tally_key k' (bump_key k acc)
  = tally_key k' acc + (if bool_decide (k = k') then 1 else 0).
Proof.
  induction acc as [|[k0 c] acc IH]; simpl.
  - repeat case_bool_decide; simplify_eq; done.
  - destruct (bool_decide (k0 = k)) eqn:Hk; simpl.
    + apply bool_decide_eq_true in Hk as ->.
      repeat case_bool_decide; simplify_eq; lia.
    + rewrite IH. apply bool_decide_eq_false in Hk.
      repeat case_bool_decide; simplify_eq; lia.
Qed.

Lemma bump_key_keys k acc :
  (bump_key k acc).*1
  = if bool_decide (k ∈ acc.*1) then acc.*1 else acc.*1 ++ [k].
Proof.
  induction acc as [|[k0 c] acc IH]; csimpl.
  - done.
  - destruct (bool_decide (k0 = k)) eqn:Hk; csimpl.
    + apply bool_decide_eq_true in Hk as ->.
      rewrite bool_decide_true; [done|]. by left.
    + apply bool_decide_eq_false in Hk. rewrite IH.
      destruct (bool_decide (k ∈ acc.*1)) eqn:Hin.
      * apply bool_decide_eq_true in Hin.
        rewrite bool_decide_true; [done|]. by right.
      * apply bool_decide_eq_false in Hin.
        rewrite bool_decide_false; [done|].
        rewrite elem_of_cons. intros [-> | ?]; done.
Qed.

Lemma bump_key_NoDup k acc : NoDup acc.*1 → NoDup (bump_key k acc).*1.
Proof.
  intros Hnd. rewrite bump_key_keys. case_bool_decide; [done|].
  apply NoDup_app. split_and!; [done| |apply NoDup_singleton].
  intros x Hx ->%list_elem_of_singleton. done.
Qed.

Lemma bump_key_positive k acc :
  Forall (λ p, 0 < p.2) acc → Forall (λ p, 0 < p.2) (bump_key k acc).
Proof.
  induction 1 as [|[k0 c] acc Hc Hacc IH]; simpl.
  - repeat constructor.
  - case_bool_decide; constructor; simpl in *; try done. lia.
Qed.

Lemma bump_key_sum k acc :
  sum_list_with snd (bump_key k acc) = S (sum_list_with snd acc).
Proof.
  induction acc as [|[k0 c] acc IH]; simpl; [done|].
  case_bool_decide; simpl; [done|]. rewrite IH. lia.
Qed.

Lemma elem_of_tally_key k c acc :
  NoDup acc.*1 → Forall (λ p, 0 < p.2) acc →
  (k, c) ∈ acc ↔ tally_key k acc = c ∧ 0 < c.
Proof.
  induction acc as [|[k0 c0] acc IH]; simpl; intros Hnd Hpos.
  - split; [by intros ?%elem_of_nil | lia].
  - apply NoDup_cons in Hnd as [Hk0 Hnd].
    apply Forall_cons in Hpos as [Hc0 Hpos]. simpl in Hc0.
    rewrite elem_of_cons, (IH Hnd Hpos). case_bool_decide as Hk.
    + subst k0. split.
      * intros [[= ->] | [Ht Hc]]; [done|].
        exfalso. apply Hk0. apply list_elem_of_fmap.
        exists (k, c). split; [done|]. apply (IH Hnd Hpos). done.
      * intros [-> _]. by left.
    + split.
      * intros [[= -> ->] | ?]; done.
      * intros ?. by right.
Qed.

Lemma group_by_category_status_snoc ds d :
  group_by_category_status (ds ++ [d])
  = bump_key (category d.2, status d.2) (group_by_category_status ds).
Proof. unfold group_by_category_status. by rewrite foldl_snoc. Qed.

Lemma count_cs_snoc k ds d :
  count_cs k (ds ++ [d])
  = count_cs k ds + (if bool_decide ((category d.2, status d.2) = k) then 1 else 0).
Proof.
  unfold count_cs. rewrite filter_app, length_app. f_equal.
  rewrite filter_cons, filter_nil.
  case_decide; case_bool_decide; done.
Qed.

Lemma group_by_category_status_spec ds :
  NoDup (group_by_category_status ds).*1 ∧
  Forall (λ p, 0 < p.2) (group_by_category_status ds) ∧
  (∀ k, tally_key k (group_by_category_status ds) = count_cs k ds) ∧
  sum_list_with snd (group_by_category_status ds) = length ds.
Proof.
  induction ds as [|d ds (Hnd & Hpos & Ht & Hs)] using rev_ind.
  - split_and!; [constructor | constructor | done | done].
  - rewrite group_by_category_status_snoc. split_and!.
    + by apply bump_key_NoDup.
    + by apply bump_key_positive.
    + intros k. by rewrite tally_bump_key, Ht, count_cs_snoc.
    + rewrite bump_key_sum, Hs, length_app. simpl. lia.
Qed.
End grouping_cs.

Lemma print_counts_cs_ok l w0 :
  Forall (λ p : cs_key * nat, is_Some p.1.2) l →
  (print_counts_cs l w0).1 = Ok () ∧ only_printed w0 (print_counts_cs l w0).2.
Proof.
  intros Hl. revert w0. induction Hl as [|p l [s Hs] _ IH]; intros w0; simpl;
    [done|].
  unfold_monad. rewrite Hs. simpl.
  match goal with |- context [print_counts_cs l ?w1] =>
    destruct (IH w1) as [H1 H2] end.
  split; [done|]. unfold only_printed in *. simpl in *. done.
Qed.

(** X24.  With the store answering and every document carrying a status, the
    category / status aggregation returns one triple per pair that occurs,
    with the number of documents having that pair; the triples are ordered
    by category ascending and, within a category, by count descending; the
    counts add up to the number of documents. *)
Theorem contar_bens_por_categoria_e_status_counts (w : world) :
  calm 1 w →
  Forall (λ d, is_Some (status d.2)) (bens w) →
  ∃ results,
    (contar_bens_por_categoria_e_status w).1 = Ok results ∧
    StronglySorted category_then_count results ∧
    NoDup results.*1 ∧
    (∀ k n, (k, n) ∈ results ↔ n = count_cs k (bens w) ∧ 0 < n) ∧
    sum_list_with snd results = length (bens w).
Proof.
  intros Hc Hst.
  set (results := merge_sort category_then_count
                    (group_by_category_status (bens w))).
  assert (Hperm : results ≡ₚ group_by_category_status (bens w))
    by apply merge_sort_Permutation.
  destruct (group_by_category_status_spec (bens w)) as (Hnd & Hpos & Ht & Hs).
  assert (Hmem : ∀ k n, (k, n) ∈ results ↔ n = count_cs k (bens w) ∧ 0 < n).
  { intros k n. rewrite Hperm, (elem_of_tally_key k n _ Hnd Hpos), Ht.
    split; [by intros [<- ?] | by intros [-> ?]]. }
  assert (Hkeys : Forall (λ p : cs_key * nat, is_Some p.1.2) results).
  { apply Forall_forall. intros [k n] [-> Hn]%Hmem. simpl.
    unfold count_cs in Hn.
    destruct (filter _ (bens w)) as [|d rest] eqn:Hfil; [simpl in Hn; lia|].
    assert (Hd : d ∈ filter (λ d, (category d.2, status d.2) = k) (bens w))
      by (rewrite Hfil; by left).
    apply list_elem_of_filter in Hd as [<- Hd]. simpl.
    by apply (proj1 (Forall_forall _ _) Hst). }
  exists results. split_and!.
  - unfold contar_bens_por_categoria_e_status. rewrite bind_print.
    unfold aggregate_count_by_category_status. unfold_monad.
    rewrite (store_call_calm 0) by done. simpl. fold results.
    destruct results as [|x rest] eqn:Hres; [done|].
    match goal with |- context [print_counts_cs ?l ?w1] =>
      destruct (print_counts_cs_ok l w1 Hkeys) as [H1 _];
      destruct (print_counts_cs l w1) as [[u|e] w2]
    end; simpl in *; done.
  - apply StronglySorted_merge_sort; apply _.
  - by rewrite Hperm.
  - done.
  - by rewrite Hperm.
Qed.

Lemma contar_bens_por_categoria_e_status_counts_witness :
  ∃ results,
    (contar_bens_por_categoria_e_status
       (mundo [(1, bem "A1" "Sala" "Ativo" [aquisicao]);
               (2, bem "A2" "Lab" "Em Uso" [aquisicao]);
               (3, bem "A3" "Lab" "Ativo" [aquisicao])] [] true ∅)).1
    = Ok results ∧
    (("Cat", Some "Ativo"), 2) ∈ results ∧
    sum_list_with snd results = 3.
Proof.
  destruct (contar_bens_por_categoria_e_status_counts
              (mundo [(1, bem "A1" "Sala" "Ativo" [aquisicao]);
                      (2, bem "A2" "Lab" "Em Uso" [aquisicao]);
                      (3, bem "A3" "Lab" "Ativo" [aquisicao])] [] true ∅))
    as (results & Hr & _ & _ & Hmem & Hs); [reflexivity | |].
  - repeat constructor; by eexists.
  - exists results. split_and!; [exact Hr | | exact Hs].
    apply Hmem. split; [reflexivity | simpl; lia].
Defined.

(** ** The operations in sequence *)

Lemma filter_all {A} (P : A → Prop) `{∀ x, Decision (P x)} (l : list A) :
  Forall P l → filter P l = l.
Proof.
  induction 1 as [|x l Hx _ IH]; [done|].
  by rewrite filter_cons, decide_True, IH.
Qed.

Lemma filter_none {A} (P : A → Prop) `{∀ x, Decision (P x)} (l : list A) :
  Forall (λ x, ¬ P x) l → filter P l = [].
Proof.
  induction 1 as [|x l Hx _ IH]; [done|].
  by rewrite filter_cons, decide_False, IH.
Qed.

Lemma group_by_location_uniform ds L :
  ds ≠ [] → Forall (λ d, location d.2 = Some L) ds →
  group_by_location ds = [(Some L, length ds)].
Proof.
  induction ds as [|d ds IH] using rev_ind; [done|].
  intros _ [Hds [Hd _]%Forall_cons]%Forall_app.
  rewrite group_by_location_snoc, Hd, length_app. simpl.
  destruct ds as [|x ds']; [done|].
  rewrite IH by done. simpl. rewrite bool_decide_true by done.
  do 2 f_equal. lia.
Qed.

Lemma importar_locations (n : nat) (sample : list row) :
  Forall (λ d, location d.2 = Some "Armazenagem Principal" ∧
               is_Some (status d.2))
    (stamp n (doc_of_row <$> sample)).
Proof.
  apply Forall_forall. intros d [_ Hd]%stamp_elem_of.
  apply list_elem_of_fmap in Hd as (x & -> & _). simpl. split; [done|by eexists].
Qed.

(** X25.  Right after a successful import every document sits in the main
    storage, so the location aggregation returns the single pair
    ("Armazenagem Principal", number of imported rows). *)
Theorem importar_then_contar
    (w : world) (path : string) (limit : Z) (rows : list row) :
  files w !! path = Some (Table rows) → quiet w →
  amostra limit rows ≠ [] →
  let w1 := (importar_csv_para_mongodb path limit w).2 in
  (contar_bens_por_localizacao w1).1
  = Ok [(Some "Armazenagem Principal", length (amostra limit rows))].
Proof.
  intros Hf Hq Hne w1.
  destruct (importar_quiet w path limit rows Hf Hq Hne) as (Hb1 & _ & Hq1 & _).
  fold w1 in Hb1, Hq1.
  destruct (contar_bens_por_localizacao_calm w1) as [Hr _];
    [by apply quiet_calm|].
  rewrite Hr, Hb1.
  rewrite (group_by_location_uniform _ "Armazenagem Principal").
  - by rewrite stamp_length, length_fmap.
  - intros Hnil%(f_equal length). rewrite stamp_length, length_fmap in Hnil.
    by destruct (amostra limit rows).
  - eapply Forall_impl; [apply importar_locations|]. by intros d [? _].
Qed.

Lemma importar_then_contar_witness :
  let w := mundo [(1, bem "A1" "Sala" "Ativo" [aquisicao])] [] true
             {[ "products.csv" := Table [linha "10" "x"; linha "11" "y";
                                          linha "12" "z"] ]} in
  let w1 := (importar_csv_para_mongodb "products.csv" 2 w).2 in
  (contar_bens_por_localizacao w1).1 = Ok [(Some "Armazenagem Principal", 2)].
Proof.
  intros w w1.
  apply (importar_then_contar w "products.csv" 2
           [linha "10" "x"; linha "11" "y"; linha "12" "z"]);
    [reflexivity | reflexivity | done].
Defined.

Lemma ticks_quiet n w : quiet w → quiet (ticks n w).
Proof.
  unfold quiet. revert w. induction n as [|n IH]; intros w Hq; [done|].
  rewrite ticks_S. apply IH. simpl. by rewrite Hq.
Qed.

Lemma inserir_documento_extra_quiet w n :
  (1 ≤ n)%Z → quiet w → quiet (inserir_documento_extra n w).2.
Proof.
  intros Hn Hq. unfold inserir_documento_extra. unfold_monad.
  rewrite novos_bens_calm by (by apply quiet_calm).
  rewrite length_seq. simpl.
  pose proof (ticks_quiet (Z.to_nat n) w Hq) as Hq'.
  rewrite (insert_many_calm 0).
  - unfold quiet in *. simpl. by rewrite Hq'.
  - intros Hnil%fmap_nil_inv%(f_equal length). rewrite length_seq in Hnil.
    simpl in Hnil. lia.
  - by apply quiet_calm.
Qed.

Lemma buscar_bens_por_localizacao_calm w loc :
  calm 1 w →
  Forall (λ d, is_Some (status d.2))
    (filter (λ d, location d.2 = Some loc) (bens w)) →
  (buscar_bens_por_localizacao loc w).1
  = Ok (filter (λ d, location d.2 = Some loc) (bens w)).
Proof.
  intros Hc Hst. unfold buscar_bens_por_localizacao. rewrite bind_print.
  unfold find_by_location. unfold_monad.
  rewrite (store_call_calm 0) by done. simpl.
  destruct (filter _ (bens w)) as [|x rest]; [done|].
  match goal with |- context [print_assets ?l ?w1] =>
    destruct (print_assets_ok l w1 Hst) as [H1 _];
    destruct (print_assets l w1) as [[u|e] w2]
  end; simpl in *; done.
Qed.

(** X26.  Import, then insert, then query: after a successful import and a
    successful manual insertion of [n] documents the collection holds the
    imported documents followed by the [n] new ones, and the query for
    "Laboratório 101" returns exactly the new ones. *)
Theorem importar_inserir_buscar
    (w : world) (path : string) (limit : Z) (rows : list row) (n : Z) :
  files w !! path = Some (Table rows) → quiet w →
  amostra limit rows ≠ [] → (1 ≤ n)%Z →
  let w1 := (importar_csv_para_mongodb path limit w).2 in
  let r2 := inserir_documento_extra n w1 in
  ∃ batch : list stored,
    bens r2.2 = bens w1 ++ batch ∧
    length (bens r2.2) = length (amostra limit rows) + Z.to_nat n ∧
    r2.1 = Ok batch.*1 ∧
    (buscar_bens_por_localizacao "Laboratório 101" r2.2).1 = Ok batch.
Proof.
  intros Hf Hq Hne Hn w1 r2.
  destruct (importar_quiet w path limit rows Hf Hq Hne) as (Hb1 & _ & Hq1 & _).
  fold w1 in Hb1, Hq1.
  destruct (inserir_documento_extra_calm w1 n Hn) as [Hr2 Hb2];
    [by apply quiet_calm|].
  fold r2 in Hr2, Hb2.
  pose proof (inserir_documento_extra_quiet w1 n Hn Hq1) as Hq2. fold r2 in Hq2.
  set (batch := stamp (next_oid w1)
                  (novo_bem (length (bens w1)) <$> seq 0 (Z.to_nat n))) in *.
  assert (Hbatch : Forall (λ d, location d.2 = Some "Laboratório 101" ∧
                                is_Some (status d.2)) batch).
  { apply Forall_forall. intros d [_ Hd]%stamp_elem_of.
    apply list_elem_of_fmap in Hd as (i & -> & _). simpl. split; [done|by eexists]. }
  assert (Hfil : filter (λ d, location d.2 = Some "Laboratório 101") (bens r2.2)
                 = batch).
  { rewrite Hb2, filter_app, Hb1, filter_none, filter_all; [done| |].
    - eapply Forall_impl; [exact Hbatch|]. by intros d [? _].
    - eapply Forall_impl; [apply importar_locations|].
      intros d [Hl _]. simpl. by rewrite Hl. }
  exists batch. split_and!; [done| |done|].
  - rewrite Hb2, length_app, Hb1, stamp_length, length_fmap.
    unfold batch. by rewrite stamp_length, length_fmap, length_seq.
  - rewrite buscar_bens_por_localizacao_calm; [by rewrite Hfil|by apply quiet_calm|].
    rewrite Hfil. eapply Forall_impl; [exact Hbatch|]. by intros d [_ ?].
Qed.

Lemma importar_inserir_buscar_witness :
  let w := mundo [(1, bem "A1" "Sala" "Ativo" [aquisicao])] [] true
             {[ "products.csv" := Table [linha "10" "x"; linha "11" "y"] ]} in
  let w1 := (importar_csv_para_mongodb "products.csv" 5000 w).2 in
  let r2 := inserir_documento_extra 5 w1 in
  ∃ batch : list stored,
    length (bens r2.2) = 7 ∧
    (buscar_bens_por_localizacao "Laboratório 101" r2.2).1 = Ok batch ∧
    r2.1 = Ok batch.*1.
Proof.
  intros w w1 r2.
  destruct (importar_inserir_buscar w "products.csv" 5000
              [linha "10" "x"; linha "11" "y"] 5)
    as (batch & _ & Hl & Hr & Hq); [reflexivity | reflexivity | done | lia |].
  exists batch. split_and!; [exact Hl | exact Hq | exact Hr].
Defined.

Lemma guarded_never_raises_witness :
  (run_op (Delete "A1")
     (mundo [(1, bem "A1" "Sala" "Ativo" [aquisicao])]
        [Some "connection closed"] true ∅)).1 = None.
Proof. apply guarded_never_raises. reflexivity. Defined.
